(** * Squirrel lazy data loader: batch assembly and distributed sharding

    A shallow embedding of [data_loader.py]: the streaming reader
    ([lazy_reader]), the dynamic batch assembler ([fetch_batch]), the per-rank
    batch splitter ([DistributedBatch.__init__]), the resumable epoch loop
    ([LazyBucketIterator.__iter__]) and the batch cost functions of
    [DataLoader.__init__].

    Conventions.  Python integers are [Z]; [len(l)] is [Z.of_nat (length l)];
    Python numbers that may be fractional (batch costs) are [Q]; a line of
    text is the list of its code points; a raised exception is the [Raise]
    case of [result]; a generator is the list of the values it yields over a
    finite input. *)

From Stdlib Require Import List ZArith QArith Bool Lia.
From Stdlib Require Import Permutation Sorted.
From Stdlib Require Ascii String.
Import ListNotations.

Local Open Scope Z_scope.

Abbreviation len l := (Z.of_nat (length l)) (only parsing).

(** ** Exceptions *)

(** The exception of the arithmetic, and those the [process] of a field may
    raise: [ValueError], or any other, by its name. *)
Inductive exn : Type :=
| ZeroDivisionError
| ValueError
| Exception (name : String.string).

Inductive result (A : Type) : Type :=
| Ok (a : A)
| Raise (e : exn).

Arguments Ok {A} a.
Arguments Raise {A} e.

Definition bind {A B : Type} (r : result A) (k : A -> result B) : result B :=
  match r with
  | Ok a => k a
  | Raise e => Raise e
  end.

Notation "x <- r ;; k" := (bind r (fun x => k))
  (at level 61, r at next level, right associativity).

(** ** Python list slicing *)

Module PyList.

(** An index of a slice, brought into [0, n] the way [l[i:j]] does it: a
    negative index counts from the end, and both ends saturate. *)
Definition clamp (n i : Z) : Z :=
  if i <? 0 then Z.max (i + n) 0 else Z.min i n.

(** [l[start:stop]] *)
Definition slice {A : Type} (l : list A) (start stop : Z) : list A :=
  let lo := clamp (len l) start in
  let hi := clamp (len l) stop in
  firstn (Z.to_nat (hi - lo)) (skipn (Z.to_nat lo) l).

(** [l[:stop]] *)
Definition slice_to {A : Type} (l : list A) (stop : Z) : list A :=
  slice l 0 stop.

(** [l[start:]] *)
Definition slice_from {A : Type} (l : list A) (start : Z) : list A :=
  slice l start (len l).

(** [range(n)] *)
Definition range (n : Z) : list Z :=
  map Z.of_nat (seq 0 (Z.to_nat n)).

End PyList.

(** ** DistributedBatch: the shard of one rank *)

Module Shard.

(** [math.floor(a / b)]: true division, then floor.  On integers below 2^53
    (every list length) the float quotient rounds to the same floor as the
    exact one, which is [Z.div]; a zero divisor raises. *)
Definition floor_div (a b : Z) : result Z :=
  if b =? 0 then Raise ZeroDivisionError else Ok (a / b).

(** The two offsets [start_pos], [end_pos] of [DistributedBatch.__init__]. *)
Definition shard_bounds (big_batch_size world_size local_rank : Z)
  : result (Z * Z) :=
  mini_batch_size <- floor_div big_batch_size world_size ;;
  let additional_size := big_batch_size - mini_batch_size * world_size in
  let start_pos :=
    if additional_size >? local_rank then local_rank else additional_size in
  let start_pos := start_pos + local_rank * mini_batch_size in
  let end_pos :=
    if additional_size >? local_rank + 1 then local_rank + 1
    else additional_size in
  let end_pos := end_pos + (local_rank + 1) * mini_batch_size in
  Ok (start_pos, end_pos).

(** The examples kept by [DistributedBatch(data, ..., world_size, local_rank)]
    for [data] that is not [None]: [data[start_pos:end_pos]], the value of
    [data] when the constructor turns to the fields.  [Ok] says that the
    offsets and the slice were computed, not that the constructor returns:
    what it does with the slice is [Batch.__init__]. *)
Definition DistributedBatch {A : Type} (data : list A)
    (world_size local_rank : Z) : result (list A) :=
  bounds <- shard_bounds (len data) world_size local_rank ;;
  Ok (PyList.slice data (fst bounds) (snd bounds)).

(** [self.batch_size] of the resulting batch. *)
Definition shard_size {A : Type} (data : list A) (world_size local_rank : Z)
  : result Z :=
  shard <- DistributedBatch data world_size local_rank ;;
  Ok (len shard).

(** The cut point before the shard of rank [R]: where the shards of the
    ranks below [R] end. *)
Definition cut (B W R : Z) : Z := Z.min R (B - B / W * W) + R * (B / W).

(** The sum of a list of sizes. *)
Definition total (sizes : list Z) : Z := fold_right Z.add 0 sizes.

End Shard.

(** ** fetch_batch: the dynamic batch assembler *)

Module Assembler.

Section FetchBatch.

Context {A : Type}.

(** [batch_size_fn(new, count, sofar)] *)
Definition cost_fn : Type := A -> Z -> Q -> Q.

(** The default installed when [batch_size_fn is None]. *)
Definition default_batch_size_fn : cost_fn :=
  fun new count sofar => inject_Z count.

(** [if batch_size_fn is None: ...] *)
Definition or_default (batch_size_fn : option cost_fn) : cost_fn :=
  match batch_size_fn with
  | None => default_batch_size_fn
  | Some f => f
  end.

(** The local variables of the generator.  [reserved_minibatch] stays
    empty when [reserve] is off (the source does not create it then). *)
Record state : Type := mk_state {
  minibatch : list A;
  size_so_far : Q;
  reserved_minibatch : list A
}.

Definition initial : state := mk_state [] 0%Q [].

(** [a > b] on costs. *)
Definition Qgtb (a b : Q) : bool := negb (Qle_bool a b).

(** One turn of [for it, ex in enumerate(data)]: the batch yielded in this
    turn, if any, and the variables afterwards. *)
Definition fetch_step (batch_size : Z) (batch_size_fn : cost_fn)
    (world_size : Z) (reserve : bool) (it : Z) (ex : A) (st : state)
  : option (list A) * state :=
  if reserve && (it <? world_size) then
    (None, mk_state (minibatch st) (size_so_far st)
                    (reserved_minibatch st ++ [ex]))
  else
    let minibatch' := minibatch st ++ [ex] in
    let size_so_far' :=
      batch_size_fn ex (len minibatch') (size_so_far st) in
    let target := inject_Z (batch_size * world_size) in
    if Qeq_bool size_so_far' target && (len minibatch' >? world_size) then
      (Some minibatch', mk_state [] 0%Q (reserved_minibatch st))
    else if Qgtb size_so_far' target
            && (len minibatch' >? world_size + 1) then
      (Some (PyList.slice_to minibatch' (-1)),
       mk_state (PyList.slice_from minibatch' (-1))
                (batch_size_fn ex 1 0%Q)
                (reserved_minibatch st))
    else
      (None, mk_state minibatch' size_so_far' (reserved_minibatch st)).

(** The whole [for] loop over a finite [data], from turn [it] on: the
    batches yielded inside the loop, and the variables at its end. *)
Fixpoint fetch_loop (batch_size : Z) (batch_size_fn : cost_fn)
    (world_size : Z) (reserve : bool) (it : Z) (data : list A) (st : state)
  : list (list A) * state :=
  match data with
  | [] => ([], st)
  | ex :: data' =>
      let (y, st') :=
        fetch_step batch_size batch_size_fn world_size reserve it ex st in
      let (ys, st'') :=
        fetch_loop batch_size batch_size_fn world_size reserve
                   (it + 1) data' st' in
      (match y with Some b => b :: ys | None => ys end, st'')
  end.

(** The batch of the unconditional [yield minibatch] after the loop. *)
Definition final_batch (reserve : bool) (st : state) : list A :=
  if reserve then minibatch st ++ reserved_minibatch st else minibatch st.

(** [fetch_batch(data, batch_size, batch_size_fn, world_size, reserve)] on a
    finite [data]: every batch it yields, in order. *)
Definition fetch_batch (data : list A) (batch_size : Z)
    (batch_size_fn : option cost_fn) (world_size : Z) (reserve : bool)
  : list (list A) :=
  let batch_size_fn := or_default batch_size_fn in
  let (ys, st) :=
    fetch_loop batch_size batch_size_fn world_size reserve 0 data initial in
  ys ++ [final_batch reserve st].

(** The batches yielded before the final one. *)
Definition non_final_batches (data : list A) (batch_size : Z)
    (batch_size_fn : option cost_fn) (world_size : Z) (reserve : bool)
  : list (list A) :=
  removelast (fetch_batch data batch_size batch_size_fn world_size reserve).

(** The accumulated cost of a batch: [batch_size_fn] applied to its
    examples one after the other, from cost 0, each with its position. *)
Fixpoint accumulate (fn : cost_fn) (count : Z) (sofar : Q) (batch : list A)
  : Q :=
  match batch with
  | [] => sofar
  | ex :: batch' => accumulate fn (count + 1) (fn ex (count + 1) sofar) batch'
  end.

Definition batch_cost (fn : cost_fn) (batch : list A) : Q :=
  accumulate fn 0 0%Q batch.

(** A cost function whose accumulated cost never decreases when an example
    is appended to a batch. *)
Definition monotone (fn : cost_fn) : Prop :=
  forall (batch : list A) (ex : A),
    (batch_cost fn batch <= batch_cost fn (batch ++ [ex]))%Q.

(** What holds of the variables between two turns of the loop: the running
    cost is the accumulated cost of the batch being built, and a batch kept
    past [world_size + 1] examples is within the target. *)
Definition inv (batch_size : Z) (fn : cost_fn) (world_size : Z) (st : state)
  : Prop :=
  size_so_far st = batch_cost fn (minibatch st) /\
  (world_size + 1 < len (minibatch st) ->
   (size_so_far st <= inject_Z (batch_size * world_size))%Q).

(** What holds of a batch yielded inside the loop: it has more than
    [world_size] examples, and it is within the target unless it has
    exactly [world_size + 1] examples. *)
Definition emitted_ok (batch_size : Z) (fn : cost_fn) (world_size : Z)
    (b : list A) : Prop :=
  world_size < len b /\
  ((batch_cost fn b <= inject_Z (batch_size * world_size))%Q \/
   len b = world_size + 1).

End FetchBatch.

Arguments cost_fn A : clear implicits.
Arguments state A : clear implicits.

End Assembler.

(** ** The batch cost functions of DataLoader *)

Module Cost.

Section Cost.

Variable token : Type.

(** An example of the translation data set: its two fields. *)
Record Example : Type := mk_example {
  src : list token;
  trg : list token
}.

(** [max(a, b)]: the first of the largest arguments. *)
Definition py_max2 (a b : Q) : Q := if Qle_bool b a then a else b.

(** [max(a, b, c)] *)
Definition py_max3 (a b c : Q) : Q := py_max2 (py_max2 a b) c.

Definition dyn_batch_with_padding : Assembler.cost_fn Example :=
  fun new i sofar =>
    let prev_max_len :=
      if i >? 1 then (sofar / inject_Z (i - 1))%Q else 0%Q in
    let t :=
      (py_max3 (inject_Z (len (src new))) (inject_Z (len (trg new)))
               prev_max_len * inject_Z i)%Q in
    t.

Definition dyn_batch_without_padding : Assembler.cost_fn Example :=
  fun new i sofar =>
    (sofar + py_max2 (inject_Z (len (src new))) (inject_Z (len (trg new))))%Q.

(** [lambda new, count, sofar: count] *)
Definition count_batch_size_fn : Assembler.cost_fn Example :=
  fun new count sofar => inject_Z count.

(** The choice of [DataLoader.__init__]. *)
Definition batch_size_fn (batch_size : Z) : Assembler.cost_fn Example :=
  if batch_size =? 1 then count_batch_size_fn
  else dyn_batch_without_padding.

(** The longest field of one example. *)
Definition max_field_len (ex : Example) : Z :=
  Z.max (len (src ex)) (len (trg ex)).

(** The longest field over a batch (0 on the empty batch). *)
Definition batch_max_len (batch : list Example) : Z :=
  fold_right Z.max 0 (map max_field_len batch).

(** The sum over a batch of each example's longest field. *)
Definition batch_sum_len (batch : list Example) : Z :=
  fold_right Z.add 0 (map max_field_len batch).

End Cost.

Arguments src {token} e.
Arguments trg {token} e.
Arguments mk_example {token} src trg.

End Cost.

(** ** lazy_reader: the streaming record reader *)

Module Reader.

(** A string is the list of its code points. *)
Abbreviation str := (list Z) (only parsing).

(** The string of a literal: the codes of its characters. *)
Definition text (s : String.string) : str :=
  map (fun c => Z.of_N (Ascii.N_of_ascii c)) (String.list_ascii_of_string s).

(** The whitespace of [str.strip] and [str.split], which is that of
    [str.isspace]: U+0009 to U+000D, U+001C to U+0020, U+0085, U+00A0,
    U+1680, U+2000 to U+200A, U+2028, U+2029, U+202F, U+205F and U+3000. *)
Definition isspace (c : Z) : bool :=
  ((9 <=? c) && (c <=? 13)) || ((28 <=? c) && (c <=? 32))
  || (c =? 133) || (c =? 160) || (c =? 5760)
  || ((8192 <=? c) && (c <=? 8202))
  || (c =? 8232) || (c =? 8233) || (c =? 8239) || (c =? 8287)
  || (c =? 12288).

Fixpoint lstrip (s : str) : str :=
  match s with
  | [] => []
  | c :: s' => if isspace c then lstrip s' else s
  end.

Fixpoint rstrip (s : str) : str :=
  match s with
  | [] => []
  | c :: s' =>
      match rstrip s' with
      | [] => if isspace c then [] else [c]
      | r => c :: r
      end
  end.

(** [line.strip()] *)
Definition strip (s : str) : str := lstrip (rstrip s).

(** [split_from word s]: the words of [s], where [word] is the word being
    read, if one is open. *)
Fixpoint split_from (word : option str) (s : str) : list str :=
  match s with
  | [] =>
      match word with
      | Some w => [w]
      | None => []
      end
  | c :: s' =>
      if isspace c then
        match word with
        | Some w => w :: split_from None s'
        | None => split_from None s'
        end
      else
        let w := match word with
                 | Some w => w
                 | None => []
                 end in
        split_from (Some (w ++ [c])) s'
  end.

(** [line.split()]: the maximal runs of characters that are not whitespace. *)
Definition split (s : str) : list str := split_from None s.

(** [line == ''] *)
Definition is_empty (line : str) : bool :=
  match line with
  | [] => true
  | _ :: _ => false
  end.

(** [a % b] *)
Definition py_mod (a b : Z) : result Z :=
  if b =? 0 then Raise ZeroDivisionError else Ok (a mod b).

(** What [data.Example.fromlist(example, fields)] is built from: the stripped
    lines of one aligned tuple. *)
Definition Example : Type := list str.

(** The variables of the generator that live across lines and across the
    reopenings of the files. *)
Record state : Type := mk_state {
  examples : list Example;
  out_step : Z
}.

Definition initial : state := mk_state [] 0.

(** The inner loop over the fields of a tuple: [flag] after it. *)
Fixpoint length_flag (max_len : Z) (lines : list str) : Z :=
  match lines with
  | [] => 0
  | line :: lines' =>
      if len (split line) >? max_len then 1 else length_flag max_len lines'
  end.

(** [if (out_step % buffer == 0) and (out_step > 0)]: the examples yielded
    and the variables afterwards, or the exception of [%]. *)
Definition flush (buffer : Z) (st : state) : list Example * result state :=
  match py_mod (out_step st) buffer with
  | Raise e => ([], Raise e)
  | Ok r =>
      if (r =? 0) && (out_step st >? 0) then
        (examples st, Ok (mk_state [] (out_step st)))
      else ([], Ok st)
  end.

(** The body of the [for steps, lines in enumerate(...)] loop over the
    zipped files, for one tuple of lines. *)
Definition reader_step (max_len : option Z) (buffer : Z) (st : state)
    (lines : list str) : list Example * result state :=
  let lines := map strip lines in
  if negb (existsb is_empty lines) then
    let flag := match max_len with
                | Some m => length_flag m lines
                | None => 0
                end in
    if flag =? 1 then ([], Ok st)
    else flush buffer (mk_state (examples st ++ [lines]) (out_step st + 1))
  else flush buffer st.

(** The [for] loop over the aligned tuples [tuples] of one opening of the
    files (or of several in a row: the variables live on): the examples
    yielded, and the variables at the end or the exception raised. *)
Fixpoint lazy_reader (max_len : option Z) (buffer : Z) (st : state)
    (tuples : list (list str)) : list Example * result state :=
  match tuples with
  | [] => ([], Ok st)
  | lines :: tuples' =>
      match reader_step max_len buffer st lines with
      | (ys, Ok st') =>
          let (ys', r) := lazy_reader max_len buffer st' tuples' in
          (ys ++ ys', r)
      | (ys, Raise e) => (ys, Raise e)
      end
  end.

(** The test a tuple of stripped lines passes to become an example. *)
Definition survives (max_len : option Z) (lines : list str) : Prop :=
  Forall (fun line => line <> []) lines /\
  forall m, max_len = Some m ->
            Forall (fun line => len (split line) <= m) lines.

(** The same test as a boolean. *)
Definition survivesb (max_len : option Z) (lines : list str) : bool :=
  forallb (fun line => negb (is_empty line)) lines
  && match max_len with
     | Some m => forallb (fun line => len (split line) <=? m) lines
     | None => true
     end.

(** The bookkeeping of the buffer: [out_step] is not negative and the number
    of buffered examples is [out_step % buffer]. *)
Definition buffered (buffer : Z) (st : state) : Prop :=
  0 <= out_step st /\ len (examples st) = out_step st mod buffer.

End Reader.

(** ** LazyBucketIterator: one epoch of the resumable iterator *)

Module Iterator.

Section Iterator.

Context {A : Type}.

(** The attributes of the iterator that [__iter__] reads and writes. *)
Record iterator : Type := mk_iterator {
  sort_key : A -> Z;
  sort_within_batch : bool;
  rank : Z;
  world_size : Z;
  iterations : Z;
  _iterations_this_epoch : Z
}.

(** The iterator after [self.iterations += 1] and
    [self._iterations_this_epoch += 1]. *)
Definition advance (self : iterator) : iterator :=
  mk_iterator (sort_key self) (sort_within_batch self) (rank self)
              (world_size self) (iterations self + 1)
              (_iterations_this_epoch self + 1).

(** The iterator with its per-epoch counter loaded from a saved state. *)
Definition load (self : iterator) (k : Z) : iterator :=
  mk_iterator (sort_key self) (sort_within_batch self) (rank self)
              (world_size self) (iterations self) k.

(** [x] put into a list sorted by decreasing key, before every element
    whose key is not larger. *)
Fixpoint insert_desc (key : A -> Z) (x : A) (l : list A) : list A :=
  match l with
  | [] => [x]
  | y :: l' =>
      if key y <=? key x then x :: l else y :: insert_desc key x l'
  end.

(** [minibatch.sort(key=key, reverse=True)]: decreasing keys, elements of
    equal key in their original order. *)
Definition sort_reverse (key : A -> Z) (minibatch : list A) : list A :=
  fold_right (insert_desc key) [] minibatch.

(** [for idx, minibatch in enumerate(self.batches)] from index [idx] on:
    the per-rank batches yielded, each one as the slice of examples it is
    built from, and the iterator and [count] at the end or the exception
    raised while the slice is taken.  The loop with the constructor in
    full, fields included, is [Batch.iter_loop]. *)
Fixpoint epoch_loop (self : iterator) (count idx : Z)
    (batches : list (list A)) : list (list A) * result (iterator * Z) :=
  match batches with
  | [] => ([], Ok (self, count))
  | minibatch :: batches' =>
      let count := count + 1 in
      if _iterations_this_epoch self >? idx then
        epoch_loop self count (idx + 1) batches'
      else
        let self := advance self in
        let minibatch :=
          if sort_within_batch self
          then sort_reverse (sort_key self) minibatch
          else minibatch in
        match Shard.DistributedBatch minibatch (world_size self)
                                     (rank self) with
        | Raise e => ([], Raise e)
        | Ok shard =>
            let (ys, r) := epoch_loop self count (idx + 1) batches' in
            (shard :: ys, r)
        end
  end.

(** What one batch becomes for the caller's rank: sorted if asked for,
    then sliced. *)
Definition per_rank (self : iterator) (minibatch : list A)
  : result (list A) :=
  Shard.DistributedBatch
    (if sort_within_batch self
     then sort_reverse (sort_key self) minibatch
     else minibatch)
    (world_size self) (rank self).

(** Two iterators that differ in their counters only. *)
Definition same_config (s1 s2 : iterator) : Prop :=
  sort_key s1 = sort_key s2 /\
  sort_within_batch s1 = sort_within_batch s2 /\
  rank s1 = rank s2 /\
  world_size s1 = world_size s2.


End Iterator.

Arguments iterator A : clear implicits.

End Iterator.

(** ** fetch_pool and create_batches: bucketed batches *)

Module Pool.

Section Pool.

Context {A : Type}.

(** [x] put into a list sorted by increasing key, before every element
    whose key is not smaller. *)
Fixpoint insert_asc (key : A -> Z) (x : A) (l : list A) : list A :=
  match l with
  | [] => [x]
  | y :: l' =>
      if key x <=? key y then x :: l else y :: insert_asc key x l'
  end.

(** [sorted(p, key=key)]: increasing keys, elements of equal key in their
    original order. *)
Definition sorted (p : list A) (key : A -> Z) : list A :=
  fold_right (insert_asc key) [] p.

(** [fetch_pool(data, batch_size, key, batch_size_fn, random_shuffler,
    world_size)] for a [random_shuffler] that is given (the fallback names a
    module the file does not import) and returns the shuffled list: every
    batch it yields, in order. *)
Definition fetch_pool (data : list A) (batch_size : Z) (key : A -> Z)
    (batch_size_fn : option (Assembler.cost_fn A))
    (random_shuffler : list (list A) -> list (list A)) (world_size : Z)
  : list (list A) :=
  flat_map
    (fun p =>
       let p_batch :=
         Assembler.fetch_batch (sorted p key) batch_size batch_size_fn
                               world_size true in
       random_shuffler p_batch)
    (Assembler.fetch_batch data (batch_size * 100) batch_size_fn 1 false).

(** [LazyBucketIterator.create_batches]: [self.batches], from the examples
    [self.data()] returns. *)
Definition create_batches (sort : bool) (data : list A) (batch_size : Z)
    (sort_key : A -> Z) (batch_size_fn : option (Assembler.cost_fn A))
    (random_shuffler : list (list A) -> list (list A)) (world_size : Z)
  : list (list A) :=
  if sort then
    Assembler.fetch_batch data batch_size batch_size_fn world_size true
  else
    fetch_pool data batch_size sort_key batch_size_fn random_shuffler
               world_size.

(** The same iterator in the process of rank [r]. *)
Definition on_rank (self : Iterator.iterator A) (r : Z)
  : Iterator.iterator A :=
  Iterator.mk_iterator (Iterator.sort_key self)
    (Iterator.sort_within_batch self) r (Iterator.world_size self)
    (Iterator.iterations self) (Iterator._iterations_this_epoch self).

(** [x] comes before [y] in decreasing key order. *)
Definition key_ge (key : A -> Z) (x y : A) : Prop := key y <= key x.

(** [x] comes before [y] in increasing key order. *)
Definition key_le (key : A -> Z) (x y : A) : Prop := key x <= key y.

End Pool.

End Pool.

(** ** DistributedBatch.__init__ with its fields, and the loop that builds
    the batches *)

Module Batch.

Import Iterator.

Section Batch.

Context {A X T : Type}.

(** A field of the dataset, as the constructor uses it: the attribute it
    reads from an example ([getattr(x, name)]) and its [process], which is
    torchtext's and may raise. *)
Record field : Type := mk_field {
  attr : A -> X;
  process : list X -> result T
}.

(** What the constructor sets on the batch: [batch_size] and, for every
    field that is not [None], the value of [field.process], in the order of
    [dataset.fields]. *)
Record batch : Type := mk_batch {
  batch_size : Z;
  attributes : list T
}.

(** The loop over [dataset.fields.items()]; [None] is a field that is
    [None].  The first exception ends the loop. *)
Fixpoint process_fields (fields : list (option field)) (data : list A)
  : result (list T) :=
  match fields with
  | [] => Ok []
  | None :: fields' => process_fields fields' data
  | Some f :: fields' =>
      t <- process f (map (attr f) data) ;;
      ts <- process_fields fields' data ;;
      Ok (t :: ts)
  end.

(** The constructor from [self.batch_size = len(data)] on, [data] being the
    slice. *)
Definition of_slice (fields : list (option field)) (data : list A)
  : result batch :=
  attributes <- process_fields fields data ;;
  Ok (mk_batch (len data) attributes).

(** [DistributedBatch(data, dataset, device, world_size, local_rank)] for
    [data] that is not [None] and a dataset of fields [fields]. *)
Definition __init__ (fields : list (option field)) (data : list A)
    (world_size local_rank : Z) : result batch :=
  data <- Shard.DistributedBatch data world_size local_rank ;;
  of_slice fields data.

(** What the caller's rank makes of one batch: sorted if asked for, then
    handed to the constructor. *)
Definition construct (fields : list (option field)) (self : iterator A)
    (minibatch : list A) : result batch :=
  __init__ fields
    (if sort_within_batch self
     then sort_reverse (sort_key self) minibatch
     else minibatch)
    (world_size self) (rank self).

(** How a run of the loop of [__iter__] ends: the batches yielded, the
    iterator and [count] as the loop leaves them, and the exception, if the
    constructor raised one. *)
Record run : Type := mk_run {
  yielded : list batch;
  self_after : iterator A;
  count_after : Z;
  raised : option exn
}.

(** [for idx, minibatch in enumerate(self.batches)] from index [idx] on,
    with the constructor in full.  The counters are advanced before the
    batch is built. *)
Fixpoint iter_loop (fields : list (option field)) (self : iterator A)
    (count idx : Z) (batches : list (list A)) : run :=
  match batches with
  | [] => mk_run [] self count None
  | minibatch :: batches' =>
      let count := count + 1 in
      if _iterations_this_epoch self >? idx then
        iter_loop fields self count (idx + 1) batches'
      else
        let self := advance self in
        let minibatch :=
          if sort_within_batch self
          then sort_reverse (sort_key self) minibatch
          else minibatch in
        match __init__ fields minibatch (world_size self) (rank self) with
        | Raise e => mk_run [] self count (Some e)
        | Ok b =>
            let r := iter_loop fields self count (idx + 1) batches' in
            mk_run (b :: yielded r) (self_after r) (count_after r)
                   (raised r)
        end
  end.

(** One epoch of [__iter__] over [self.batches], for an iterator whose
    counters are as [init_epoch] left them. *)
Definition __iter__ (fields : list (option field)) (self : iterator A)
    (batches : list (list A)) : run :=
  iter_loop fields self 0 0 batches.

(** 1 if the run ended with an exception, 0 otherwise. *)
Definition failed (r : run) : Z :=
  match raised r with
  | Some _ => 1
  | None => 0
  end.

End Batch.

Arguments field A X T : clear implicits.
Arguments batch T : clear implicits.
Arguments run A T : clear implicits.

(** A field to run the constructor on: it reads the example itself, and its
    [process] rejects an empty batch, as the padding of a sequential field
    does, and returns the number of examples otherwise. *)
Definition sample_field : field Z Z Z :=
  mk_field (fun x => x)
    (fun xs => match xs with
               | [] => Raise ValueError
               | _ :: _ => Ok (len xs)
               end).

End Batch.

(** ** full_reader and the reopening loop of lazy_reader *)

Module Files.

Import Reader.

(** [zip(f1, ..., fn)] of the lines of the opened files: the tuples of the
    lines of equal index, as many as the shortest file has lines (none when
    there is no file). *)
Fixpoint zip_lines (files : list (list str)) : list (list str) :=
  match files with
  | [] => []
  | f :: files' =>
      match files' with
      | [] => map (fun line => [line]) f
      | _ :: _ =>
          map (fun pair => fst pair :: snd pair)
              (combine f (zip_lines files'))
      end
  end.

(** The [for] loop of [full_reader]: [examples] after it. *)
Fixpoint full_reader_loop (examples : list Example)
    (tuples : list (list str)) : list Example :=
  match tuples with
  | [] => examples
  | lines :: tuples' =>
      let lines := map strip lines in
      if negb (existsb is_empty lines)
      then full_reader_loop (examples ++ [lines]) tuples'
      else full_reader_loop examples tuples'
  end.

(** [full_reader(paths, fields, max_len)], from the lines of the files. *)
Definition full_reader (files : list (list str)) (max_len : option Z)
  : list Example :=
  full_reader_loop [] (zip_lines files).

(** The first [cycles] turns of the [while True] loop of [lazy_reader]: each
    turn opens the files again and reads them from the top; the variables
    live on. *)
Fixpoint lazy_reader_cycles (cycles : nat) (max_len : option Z) (buffer : Z)
    (st : state) (files : list (list str)) : list Example * result state :=
  match cycles with
  | O => ([], Ok st)
  | S cycles' =>
      match lazy_reader max_len buffer st (zip_lines files) with
      | (ys, Ok st') =>
          let (ys', r) :=
            lazy_reader_cycles cycles' max_len buffer st' files in
          (ys ++ ys', r)
      | (ys, Raise e) => (ys, Raise e)
      end
  end.

(** The examples one opening of the files contributes. *)
Definition survivors (max_len : option Z) (files : list (list str))
  : list Example :=
  filter (survivesb max_len) (map (map strip) (zip_lines files)).

(** A tuple that is dropped for its length: no field is empty, and some
    field has more than [max_len] tokens. *)
Definition too_long (max_len : option Z) (lines : list str) : bool :=
  survivesb None (map strip lines) && negb (survivesb max_len (map strip lines)).

End Files.

(** ** dyn_batch_char2d *)

Module Cost2D.

Section Cost2D.

Variable char : Type.

(** [sum([len(a) for a in field])]: the characters of a field of words. *)
Definition total_chars (field : list (list char)) : Z :=
  fold_right Z.add 0 (map (fun a => len a) field).

Definition dyn_batch_char2d : Assembler.cost_fn (Cost.Example (list char)) :=
  fun new i sofar =>
    (sofar + Cost.py_max2 (inject_Z (total_chars (Cost.src new)))
                          (inject_Z (total_chars (Cost.trg new))))%Q.

End Cost2D.

End Cost2D.

(** ** Seuqence.reverse: trimming and filtering the decoded tokens *)

Module Field.

(** A token is compared with the special tokens only. *)
Abbreviation str := String.string (only parsing).

Section Reverse.

(** The special tokens of the field; [None] when the field has none. *)
Variables (init_token pad_token eos_token : option str).

(** [e == t] for a token [t] that may be [None]. *)
Definition is_token (t : option str) (e : str) : bool :=
  match t with
  | Some s => String.eqb e s
  | None => false
  end.

(** [trim(s, t)]: the words before the first [t]. *)
Fixpoint trim (s : list str) (t : option str) : list str :=
  match s with
  | [] => []
  | w :: s' => if is_token t w then [] else w :: trim s' t
  end.

(** [filter_special(tok)] *)
Definition filter_special (tok : str) : bool :=
  negb (is_token init_token tok || is_token pad_token tok).

(** The variables of [count(ex)]. *)
Record counters : Type := mk_counters {
  n_step : Z;
  n_pad : Z;
  n_word : Z;
  filtered : list str;
  decision : list Z
}.

(** One turn of the loop of [count(ex)]. *)
Definition count_step (width : Z) (c : counters) (e : str) : counters :=
  if is_token init_token e then c
  else if is_token pad_token e then
    let n_pad' := n_pad c + 1 in
    if n_word c >? 0 then
      mk_counters (n_step c + 1) n_pad' 0 (filtered c) (decision c)
    else
      mk_counters (n_step c) n_pad' (n_word c) (filtered c) (decision c)
  else
    let (n_word', n_step') :=
      if n_word c <? width - 1 then (n_word c + 1, n_step c)
      else (0, n_step c + 1) in
    let decision' :=
      if n_word' =? 1 then decision c ++ [0] else decision c ++ [1] in
    mk_counters n_step' (n_pad c) n_word' (filtered c ++ [e]) decision'.

(** The variables of [count(ex)] after its loop. *)
Definition count (width : Z) (ex : list str) : counters :=
  fold_left (count_step width) ex (mk_counters 0 0 0 [] []).

(** The two integers [saved_time] is the quotient of:
    [n_step + (n_word == 0)] and [1 + len(filtered)]. *)
Definition saved_time_parts (c : counters) : Z * Z :=
  (n_step c + (if n_word c =? 0 then 1 else 0), 1 + len (filtered c)).

(** [batch_filtered] of [reverse], from the batch of token lists: trimmed at
    [eos_token], then filtered, by [count] or by [filter_special]. *)
Definition batch_filtered (width : Z) (return_saved_time : bool)
    (batch : list (list str)) : list (list str) :=
  let batch := map (fun ex => trim ex eos_token) batch in
  if return_saved_time then
    map (fun ex => filtered (count width ex)) batch
  else
    map (fun ex => filter filter_special ex) batch.

(** What the loop of [count] keeps true, for [width >= 1]: the open group
    has fewer than [width] words, and the kept tokens are the words of the
    [n_step] closed groups, of 1 to [width] words each, and of the open
    one. *)
Definition grouped (width : Z) (c : counters) : Prop :=
  0 <= n_word c <= width - 1 /\
  0 <= n_step c /\
  n_step c + n_word c <= len (filtered c) /\
  len (filtered c) <= n_step c * width + n_word c.

End Reverse.

End Field.

(** ** Sequence2D.pad: padding a batch of sentences of words *)

Module Grid.

(** The exceptions of [pad]. *)
Inductive pad_error : Type :=
| NotImplementedError
| ValueError.

Inductive pad_result (X : Type) : Type :=
| Done (x : X)
| Failed (e : pad_error).

Arguments Done {X} x.
Arguments Failed {X} e.

(** [max(...)] of integers; [None] stands for the [ValueError] on an empty
    sequence. *)
Definition max_of (l : list Z) : option Z :=
  match l with
  | [] => None
  | x :: l' => Some (fold_left Z.max l' x)
  end.

Section Pad.

(** What words are made of: characters and the special tokens. *)
Variable T : Type.
Variables (init_token eos_token pad_token space : T).

(** What [pad] returns: the minibatch as it is, or the padded grid, with
    the lengths when [include_lengths] is set. *)
Inductive padded : Type :=
| Unpadded (minibatch : list (list (list T)))
| Padded (padded_word_all : list (list (list T)))
         (lengths : option (list Z)).

(** One turn of the first loop: the row appended to [padded] and the number
    appended to [lengths].  The words of [x] are changed in place first;
    they are taken to be separate lists, as the tokenizer of the 2D field
    builds them, so that each one gets its [' '] once. *)
Definition pad_sentence (max_len : Z) (x : list (list T))
  : list (list T) * Z :=
  let x := map (fun word => word ++ [space]) x in
  let x := [[init_token]] ++ x ++ [[eos_token]] in
  let row :=
    x ++ repeat [pad_token] (Z.to_nat (Z.max 0 (max_len - len x))) in
  (row, len row - Z.max 0 (max_len - len x)).

(** [word[:-1] + [pad_token] * max(0, max_word - len(word)) + word[-1:]] *)
Definition pad_word (max_word : Z) (word : list T) : list T :=
  PyList.slice_to word (-1)
  ++ repeat pad_token (Z.to_nat (Z.max 0 (max_word - len word)))
  ++ PyList.slice_from word (-1).

Definition pad (sequential : bool) (fix_length : option Z)
    (include_lengths : bool) (minibatch : list (list (list T)))
  : pad_result padded :=
  if negb sequential then Done (Unpadded minibatch)
  else
    match fix_length with
    | Some _ => Failed NotImplementedError
    | None =>
        match max_of (map (fun x => len x) minibatch) with
        | None => Failed ValueError
        | Some longest =>
            let max_len := longest + 2 in
            let rows := map (pad_sentence max_len) minibatch in
            let padded := map fst rows in
            let lengths := map snd rows in
            match max_of (map (fun word => len word) (concat padded)) with
            | None => Failed ValueError
            | Some max_word =>
                let padded_word_all :=
                  map (map (pad_word max_word)) padded in
                Done (Padded padded_word_all
                             (if include_lengths then Some lengths
                              else None))
            end
        end
    end.

(** The minibatch as a call of [pad] that pads leaves it: every word has
    one more [' '] at its end. *)
Definition after_pad (minibatch : list (list (list T)))
  : list (list (list T)) :=
  map (map (fun word => word ++ [space])) minibatch.

End Pad.

Arguments Unpadded {T} minibatch.
Arguments Padded {T} padded_word_all lengths.

End Grid.

(** ** str2byte and byte2str: the byte-level tokens *)

Module Bytes.

(** A string here is the list of its code points, a [bytes] object the list
    of its bytes. *)
Definition ustr : Type := list Z.

(** A code point a strict UTF-8 codec accepts: below 0x110000 and not a
    surrogate. *)
Definition scalar (c : Z) : Prop :=
  0 <= c < 1114112 /\ ~ (55296 <= c <= 57343).

(** The values of a byte. *)
Definition byte (b : Z) : Prop := 0 <= b < 256.

(** The UTF-8 bytes of one code point; [None] stands for the
    [UnicodeEncodeError] on a surrogate. *)
Definition encode_char (c : Z) : option (list Z) :=
  if c <? 128 then Some [c]
  else if c <? 2048 then Some [192 + c / 64; 128 + c mod 64]
  else if (55296 <=? c) && (c <=? 57343) then None
  else if c <? 65536 then
    Some [224 + c / 4096; 128 + (c / 64) mod 64; 128 + c mod 64]
  else
    Some [240 + c / 262144; 128 + (c / 4096) mod 64;
          128 + (c / 64) mod 64; 128 + c mod 64].

(** [string.encode('utf-8')] *)
Fixpoint encode (string : ustr) : option (list Z) :=
  match string with
  | [] => Some []
  | c :: string' =>
      match encode_char c, encode string' with
      | Some bs, Some bs' => Some (bs ++ bs')
      | _, _ => None
      end
  end.

(** A continuation byte. *)
Definition continuation (b : Z) : bool := (128 <=? b) && (b <=? 191).

(** [bytes.decode('utf-8')]; [None] stands for the [UnicodeDecodeError] on
    bytes that are not well-formed UTF-8 (a stray or missing continuation
    byte, an overlong form, a surrogate, a value beyond 0x10FFFF). *)
Fixpoint decode (bs : list Z) : option ustr :=
  match bs with
  | [] => Some []
  | b0 :: bs1 =>
      if (0 <=? b0) && (b0 <? 128) then option_map (cons b0) (decode bs1)
      else if (194 <=? b0) && (b0 <=? 223) then
        match bs1 with
        | b1 :: bs2 =>
            if continuation b1 then
              option_map (cons ((b0 - 192) * 64 + (b1 - 128))) (decode bs2)
            else None
        | [] => None
        end
      else if (224 <=? b0) && (b0 <=? 239) then
        match bs1 with
        | b1 :: b2 :: bs3 =>
            let c := (b0 - 224) * 4096 + (b1 - 128) * 64 + (b2 - 128) in
            if continuation b1 && continuation b2 && (2048 <=? c)
               && negb ((55296 <=? c) && (c <=? 57343))
            then option_map (cons c) (decode bs3)
            else None
        | _ => None
        end
      else if (240 <=? b0) && (b0 <=? 244) then
        match bs1 with
        | b1 :: b2 :: b3 :: bs4 =>
            let c := (b0 - 240) * 262144 + (b1 - 128) * 4096
                     + (b2 - 128) * 64 + (b3 - 128) in
            if continuation b1 && continuation b2 && continuation b3
               && (65536 <=? c) && (c <=? 1114111)
            then option_map (cons c) (decode bs4)
            else None
        | _ => None
        end
      else None
  end.

(** The code point of the lower-case hex digit of [d]. *)
Definition hex_digit (d : Z) : Z := if d <? 10 then 48 + d else 87 + d.

(** [bytes.hex()] *)
Definition hex (bs : list Z) : ustr :=
  flat_map (fun b => [hex_digit (b / 16); hex_digit (b mod 16)]) bs.

(** The value of a hex digit, of either case. *)
Definition hex_value (c : Z) : option Z :=
  if (48 <=? c) && (c <=? 57) then Some (c - 48)
  else if (97 <=? c) && (c <=? 102) then Some (c - 87)
  else if (65 <=? c) && (c <=? 70) then Some (c - 55)
  else None.

(** ASCII whitespace, which [bytes.fromhex] skips between bytes. *)
Definition ascii_space (c : Z) : bool :=
  ((9 <=? c) && (c <=? 13)) || (c =? 32).

(** [bytes.fromhex(s)] (Python 3.7 and later); [None] stands for its
    [ValueError]. *)
Fixpoint fromhex (s : ustr) : option (list Z) :=
  match s with
  | [] => Some []
  | a :: s1 =>
      if ascii_space a then fromhex s1
      else
        match s1 with
        | b :: s2 =>
            match hex_value a, hex_value b with
            | Some x, Some y => option_map (cons (16 * x + y)) (fromhex s2)
            | _, _ => None
            end
        | [] => None
        end
  end.

(** [[byte[k: k+2] for k in range(0, len(byte), 2)]]: the string cut into
    pieces of two characters (the last one of one character when the length
    is odd). *)
Fixpoint pairs (byte : ustr) : list ustr :=
  match byte with
  | [] => []
  | [a] => [[a]]
  | a :: b :: byte' => [a; b] :: pairs byte'
  end.

(** [str2byte(string)]; [None] stands for the [UnicodeEncodeError]. *)
Definition str2byte (string : ustr) : option (list ustr) :=
  match encode string with
  | Some bs => let byte := hex bs in Some (pairs byte)
  | None => None
  end.

(** [byte2str(byte)]: any exception gives the empty string. *)
Definition byte2str (byte : list ustr) : ustr :=
  match fromhex (concat byte) with
  | Some bs =>
      match decode bs with
      | Some output => output
      | None => []
      end
  | None => []
  end.

(** The number of bytes of the UTF-8 form of a code point. *)
Definition utf8_length (c : Z) : Z :=
  if c <? 128 then 1 else if c <? 2048 then 2
  else if c <? 65536 then 3 else 4.

End Bytes.

(** ** The word tokenizer of DataLoader and its inverse *)

Module Tokenizer.

Import Reader.

(** [tokenizer = lambda s: s.split()], the default of [DataLoader]. *)
Definition tokenizer (s : str) : list str := split s.

(** [sep.join(ex)] *)
Fixpoint join (sep : str) (ex : list str) : str :=
  match ex with
  | [] => []
  | [x] => x
  | x :: ex' => x ++ sep ++ join sep ex'
  end.

(** [revserse_tokenizer = lambda ex: " ".join(ex)] *)
Definition revserse_tokenizer (ex : list str) : str := join [32] ex.

(** A string without whitespace. *)
Fixpoint no_space (w : str) : bool :=
  match w with
  | [] => true
  | c :: w' => negb (isspace c) && no_space w'
  end.

(** What [split] produces: tokens that are not empty and hold no
    whitespace. *)
Definition is_word (w : str) : Prop :=
  w <> [] /\ no_space w = true.

End Tokenizer.

(** * Properties *)

(** ** Slices *)

Module PyListFacts.

Import PyList.

Lemma clamp_inside (n i : Z) : 0 <= i <= n -> clamp n i = i.
Proof.
  intros H. unfold clamp.
  destruct (i <? 0) eqn:E; [apply Z.ltb_lt in E|]; lia.
Qed.

Lemma slice_inside {A : Type} (l : list A) (lo hi : Z) :
  0 <= lo <= len l -> 0 <= hi <= len l ->
  slice l lo hi = firstn (Z.to_nat (hi - lo)) (skipn (Z.to_nat lo) l).
Proof.
  intros Hlo Hhi. unfold slice.
  now rewrite !clamp_inside by assumption.
Qed.

(** [(m + [x])[:-1]] is [m]. *)
Lemma slice_to_snoc {A : Type} (m : list A) (x : A) :
  slice_to (m ++ [x]) (-1) = m.
Proof.
  unfold slice_to, slice, clamp. rewrite length_app. cbn [length].
  change (0 <? 0) with false. change (-1 <? 0) with true. cbv iota.
  rewrite Z.min_l, Z.max_l by lia.
  change (Z.to_nat 0) with 0%nat. cbn [skipn].
  replace (Z.to_nat (-1 + Z.of_nat (length m + 1) - 0)) with (length m + 0)%nat
    by lia.
  rewrite firstn_app_2. cbn. apply app_nil_r.
Qed.

(** [(m + [x])[-1:]] is [[x]]. *)
Lemma slice_from_snoc {A : Type} (m : list A) (x : A) :
  slice_from (m ++ [x]) (-1) = [x].
Proof.
  unfold slice_from, slice, clamp. rewrite length_app. cbn [length].
  change (-1 <? 0) with true. cbv iota.
  destruct (Z.of_nat (length m + 1) <? 0) eqn:E; [apply Z.ltb_lt in E; lia|].
  rewrite Z.min_l, Z.max_l by lia.
  replace (Z.to_nat (-1 + Z.of_nat (length m + 1))) with (length m) by lia.
  rewrite skipn_app, skipn_all, Nat.sub_diag. cbn [skipn app].
  replace (Z.to_nat _) with 1%nat by lia. reflexivity.
Qed.

(** Consecutive pieces between non-decreasing cut points add up to a prefix. *)
Lemma pieces_concat {A : Type} (l : list A) (cut : nat -> nat) :
  cut 0%nat = 0%nat ->
  (forall i, (cut i <= cut (S i))%nat) ->
  forall n,
    concat (map (fun i => firstn (cut (S i) - cut i) (skipn (cut i) l))
                (seq 0 n))
    = firstn (cut n) l.
Proof.
  intros H0 Hmono. induction n as [|n IH].
  - rewrite H0. reflexivity.
  - rewrite seq_S, map_app, concat_app, IH. cbn [map concat Nat.add].
    rewrite app_nil_r.
    rewrite <- (firstn_skipn (cut n) (firstn (cut (S n)) l)) at 1.
    rewrite firstn_firstn, skipn_firstn_comm.
    now rewrite Nat.min_l by apply Hmono.
Qed.

End PyListFacts.

(** ** The splitter *)

Module ShardFacts.

Import PyList PyListFacts Shard.

Lemma shard_bounds_cut (B W R : Z) :
  W <> 0 -> shard_bounds B W R = Ok (cut B W R, cut B W (R + 1)).
Proof.
  intros HW. unfold shard_bounds, floor_div, cut.
  apply Z.eqb_neq in HW. rewrite HW. cbn [bind].
  do 2 f_equal.
  - destruct (B - B / W * W >? R) eqn:E; lia.
  - destruct (B - B / W * W >? R + 1) eqn:E; lia.
Qed.

Section Cuts.

Variables B W : Z.
Hypothesis HB : 0 <= B.
Hypothesis HW : 1 <= W.

Let base := B / W.
Let remainder := B - base * W.

Lemma base_nonneg : 0 <= base.
Proof. apply Z.div_pos; lia. Qed.

Lemma remainder_bound : 0 <= remainder < W.
Proof.
  subst remainder base.
  pose proof (Z.mod_pos_bound B W ltac:(lia)).
  pose proof (Z.div_mod B W ltac:(lia)). lia.
Qed.

Lemma cut_0 : cut B W 0 = 0.
Proof. pose proof remainder_bound. unfold cut. fold base remainder. lia. Qed.

Lemma cut_step (R : Z) :
  cut B W (R + 1) - cut B W R
  = base + (if R <? remainder then 1 else 0).
Proof.
  unfold cut. fold base remainder.
  destruct (R <? remainder) eqn:E; lia.
Qed.

Lemma cut_mono (R : Z) : cut B W R <= cut B W (R + 1).
Proof.
  pose proof (cut_step R). pose proof base_nonneg.
  destruct (R <? remainder); lia.
Qed.

Lemma cut_W : cut B W W = B.
Proof.
  pose proof remainder_bound. unfold cut. fold base remainder.
  subst remainder. lia.
Qed.

Lemma cut_nonneg (R : Z) : 0 <= R -> 0 <= cut B W R.
Proof.
  intros HR. pose proof remainder_bound. pose proof base_nonneg.
  unfold cut. fold base remainder.
  assert (0 <= R * base) by (apply Z.mul_nonneg_nonneg; lia). lia.
Qed.

Lemma cut_le_B (R : Z) : R <= W -> cut B W R <= B.
Proof.
  intros HR. rewrite <- cut_W at 2.
  pose proof base_nonneg.
  unfold cut. fold base remainder.
  assert (R * base <= W * base) by (apply Z.mul_le_mono_nonneg_r; lia).
  lia.
Qed.

End Cuts.

Lemma DistributedBatch_inside {A : Type} (data : list A) (W R : Z) :
  1 <= W -> 0 <= R < W ->
  DistributedBatch data W R
  = Ok (firstn (Z.to_nat (cut (len data) W (R + 1) - cut (len data) W R))
               (skipn (Z.to_nat (cut (len data) W R)) data)).
Proof.
  intros HW HR. unfold DistributedBatch.
  rewrite shard_bounds_cut by lia. cbn [bind fst snd]. f_equal.
  pose proof (cut_nonneg (len data) W ltac:(lia) HW R ltac:(lia)).
  pose proof (cut_mono (len data) W ltac:(lia) HW R).
  pose proof (cut_le_B (len data) W ltac:(lia) HW (R + 1) ltac:(lia)).
  apply slice_inside; lia.
Qed.

Lemma shard_size_step {A : Type} (data : list A) (W R : Z) :
  1 <= W -> 0 <= R < W ->
  shard_size data W R
  = Ok (cut (len data) W (R + 1) - cut (len data) W R).
Proof.
  intros HW HR. unfold shard_size.
  rewrite DistributedBatch_inside by assumption. cbn [bind]. f_equal.
  pose proof (cut_nonneg (len data) W ltac:(lia) HW R ltac:(lia)).
  pose proof (cut_mono (len data) W ltac:(lia) HW R).
  pose proof (cut_le_B (len data) W ltac:(lia) HW (R + 1) ltac:(lia)).
  rewrite length_firstn, length_skipn. lia.
Qed.

(** C1. A batch of at least [world_size] examples gives every rank
    [0 <= R < world_size] a shard [data[start_pos:end_pos]] of at least one
    example. *)
Theorem shard_nonempty {A : Type} (data : list A) (W R : Z) :
  W <= len data -> 0 <= R < W ->
  exists shard,
    DistributedBatch data W R = Ok shard /\ 1 <= len shard.
Proof.
  intros HB HR. eexists. split.
  - apply DistributedBatch_inside; lia.
  - pose proof (shard_size_step data W R ltac:(lia) HR) as Hs.
    unfold shard_size in Hs.
    rewrite DistributedBatch_inside in Hs by lia. cbn [bind] in Hs.
    injection Hs as ->.
    rewrite cut_step by lia.
    assert (1 <= len data / W).
    { apply Z.div_le_lower_bound; lia. }
    destruct (R <? _); lia.
Qed.

Lemma shard_nonempty_witness :
  exists shard,
    DistributedBatch [10; 20; 30; 40; 50] 3 2 = Ok shard /\ 1 <= len shard.
Proof.
  apply (shard_nonempty [10; 20; 30; 40; 50] 3 2); cbn; lia.
Defined.

(** C2. For [world_size >= 1] and a rank [0 <= R < world_size], with
    [base = floor(B / W)] and [remainder = B - base * W], the offsets are
    [start = R * base + min(R, remainder)] and
    [end = start + base + (1 if R < remainder else 0)]; the shard is that
    stretch of the batch, of [base + 1] examples for the ranks below
    [remainder] and of [base] examples for the others.  Seven examples on
    three ranks start at 0, 3, 5 with sizes 3, 2, 2, and a single rank
    receives the whole batch. *)
Theorem shard_bounds_formula {A : Type} (data : list A) (W R : Z) :
  1 <= W -> 0 <= R < W ->
  let B := len data in
  let base := B / W in
  let remainder := B - base * W in
  let start := R * base + Z.min R remainder in
  let stop := start + base + (if R <? remainder then 1 else 0) in
  shard_bounds B W R = Ok (start, stop) /\
  DistributedBatch data W R
  = Ok (firstn (Z.to_nat (stop - start)) (skipn (Z.to_nat start) data)) /\
  shard_size data W R = Ok (if R <? remainder then base + 1 else base) /\
  map (shard_bounds 7 3) [0; 1; 2] = [Ok (0, 3); Ok (3, 5); Ok (5, 7)] /\
  (forall batch : list A,
      length batch = 7%nat ->
      map (shard_size batch 3) [0; 1; 2] = [Ok 3; Ok 2; Ok 2]) /\
  (forall batch : list A, DistributedBatch batch 1 0 = Ok batch).
Proof.
  intros HW HR B base remainder start stop.
  assert (Hstart : cut B W R = start) by (unfold cut; subst start; lia).
  assert (Hstop : cut B W (R + 1) = stop).
  { pose proof (cut_step B W R) as Hs. fold base remainder in Hs.
    subst stop. lia. }
  refine (conj _ (conj _ (conj _ (conj _ (conj _ _))))).
  - rewrite shard_bounds_cut by lia. now rewrite Hstart, Hstop.
  - rewrite DistributedBatch_inside by assumption.
    fold B. now rewrite Hstart, Hstop.
  - rewrite shard_size_step by assumption. fold B.
    rewrite Hstop, Hstart. subst stop. f_equal.
    destruct (R <? remainder); lia.
  - reflexivity.
  - intros batch H7. cbn [map].
    rewrite !shard_size_step by lia. rewrite H7. reflexivity.
  - intros batch. rewrite DistributedBatch_inside by lia.
    rewrite cut_0, cut_W by lia. f_equal.
    change (Z.to_nat 0) with 0%nat. cbn [skipn].
    apply firstn_all2. lia.
Qed.

Lemma shard_bounds_formula_witness :
  shard_bounds 7 3 1 = Ok (3, 5) /\
  DistributedBatch [1; 2; 3; 4; 5; 6; 7] 3 1 = Ok [4; 5] /\
  shard_size [1; 2; 3; 4; 5; 6; 7] 3 1 = Ok 2.
Proof.
  pose proof (shard_bounds_formula [1; 2; 3; 4; 5; 6; 7] 3 1
                ltac:(lia) ltac:(lia)) as H.
  cbv zeta in H. destruct H as (H1 & H2 & H3 & _).
  exact (conj H1 (conj H2 H3)).
Defined.

Lemma total_lengths {A : Type} (shards : list (list A)) :
  total (map (fun s => len s) shards) = len (concat shards).
Proof.
  induction shards as [|s shards IH]; [reflexivity|].
  cbn [map total fold_right concat]. fold (total (map (fun s => len s) shards)).
  rewrite IH, length_app. lia.
Qed.

(** C3. For [world_size >= 1] the shards of the ranks [0 .. world_size - 1],
    put one after the other in rank order, are the batch itself, and their
    sizes add up to its length. *)
Theorem shards_reconstruct {A : Type} (data : list A) (W : Z) :
  1 <= W ->
  exists shards,
    map (DistributedBatch data W) (range W) = map Ok shards /\
    concat shards = data /\
    total (map (fun s => len s) shards) = len data.
Proof.
  intros HW.
  set (B := len data).
  set (c := fun i : nat => Z.to_nat (cut B W (Z.of_nat i))).
  exists (map (fun i => firstn (c (S i) - c i) (skipn (c i) data))
              (seq 0 (Z.to_nat W))).
  assert (Hconcat :
    concat (map (fun i => firstn (c (S i) - c i) (skipn (c i) data))
                (seq 0 (Z.to_nat W))) = data).
  { rewrite pieces_concat.
    - subst c. cbv beta. rewrite Z2Nat.id by lia. rewrite cut_W by lia.
      apply firstn_all2. lia.
    - subst c. cbv beta. change (Z.of_nat 0) with 0. now rewrite cut_0 by lia.
    - intros i. subst c. cbv beta.
      pose proof (cut_mono B W ltac:(lia) HW (Z.of_nat i)).
      replace (Z.of_nat (S i)) with (Z.of_nat i + 1) by lia. lia. }
  split; [|split].
  - unfold range. rewrite !map_map. apply map_ext_in.
    intros i Hi. apply in_seq in Hi.
    rewrite DistributedBatch_inside by lia. fold B. f_equal.
    subst c. cbv beta.
    pose proof (cut_nonneg B W ltac:(lia) HW (Z.of_nat i) ltac:(lia)).
    pose proof (cut_mono B W ltac:(lia) HW (Z.of_nat i)).
    replace (Z.of_nat (S i)) with (Z.of_nat i + 1) by lia.
    f_equal. lia.
  - exact Hconcat.
  - rewrite total_lengths. now rewrite Hconcat.
Qed.

Lemma shards_reconstruct_witness :
  exists shards,
    map (DistributedBatch [1; 2; 3; 4; 5; 6; 7] 3) (range 3) = map Ok shards /\
    concat shards = [1; 2; 3; 4; 5; 6; 7] /\
    total (map (fun s => len s) shards) = 7.
Proof.
  apply (shards_reconstruct [1; 2; 3; 4; 5; 6; 7] 3). lia.
Defined.

End ShardFacts.

(** ** The assembler *)

Module AssemblerFacts.

Import PyList PyListFacts Assembler.

Lemma Qeq_bool_inject (a b : Z) :
  Qeq_bool (inject_Z a) (inject_Z b) = (a =? b).
Proof.
  destruct (a =? b) eqn:E.
  - apply Z.eqb_eq in E. subst. apply Qeq_bool_iff. reflexivity.
  - apply Z.eqb_neq in E. apply not_true_is_false. intros H.
    apply Qeq_bool_iff in H. apply E. now apply inject_Z_injective.
Qed.

Lemma Qgtb_inject (a b : Z) : Qgtb (inject_Z a) (inject_Z b) = (a >? b).
Proof.
  unfold Qgtb. rewrite Z.gtb_ltb, Z.ltb_antisym. f_equal.
  destruct (a <=? b) eqn:E.
  - apply Z.leb_le in E. apply Qle_bool_iff. now rewrite <- Zle_Qle.
  - apply Z.leb_gt in E. apply not_true_is_false. intros H.
    apply Qle_bool_iff in H. rewrite <- Zle_Qle in H. lia.
Qed.

Lemma Qgtb_false (a b : Q) : Qgtb a b = false -> (a <= b)%Q.
Proof.
  unfold Qgtb. intros H. apply negb_false_iff in H.
  now apply Qle_bool_iff.
Qed.

Section Facts.

Context {A : Type}.
Variables (batch_size : Z) (fn : cost_fn A) (world_size : Z).

Lemma accumulate_snoc (m : list A) (ex : A) :
  forall count sofar,
    accumulate fn count sofar (m ++ [ex])
    = fn ex (count + len m + 1) (accumulate fn count sofar m).
Proof.
  induction m as [|x m IH]; intros count sofar.
  - cbn. f_equal. lia.
  - cbn [app accumulate]. rewrite IH. f_equal.
    cbn [length]. lia.
Qed.

Lemma batch_cost_snoc (m : list A) (ex : A) :
  batch_cost fn (m ++ [ex]) = fn ex (len (m ++ [ex])) (batch_cost fn m).
Proof.
  unfold batch_cost. rewrite accumulate_snoc. f_equal.
  rewrite length_app. cbn [length]. lia.
Qed.

Lemma fetch_step_inv (reserve : bool) (it : Z) (ex : A) (st : state A) :
  0 <= world_size -> inv batch_size fn world_size st ->
  inv batch_size fn world_size (snd (fetch_step batch_size fn world_size reserve it ex st)) /\
  forall b,
    fst (fetch_step batch_size fn world_size reserve it ex st) = Some b ->
    emitted_ok batch_size fn world_size b.
Proof.
  intros HW [Hcost Hkeep]. unfold fetch_step.
  destruct (reserve && (it <? world_size)).
  { cbn [fst snd]. split; [split; assumption | discriminate]. }
  set (m' := minibatch st ++ [ex]).
  assert (Hcost' : fn ex (len m') (size_so_far st) = batch_cost fn m').
  { subst m'. now rewrite batch_cost_snoc, Hcost. }
  assert (Hlen : len m' = len (minibatch st) + 1).
  { subst m'. rewrite length_app. cbn [length]. lia. }
  rewrite Hcost'.
  destruct (Qeq_bool (batch_cost fn m') _ && (len m' >? world_size)) eqn:E1.
  - apply andb_true_iff in E1 as [Eeq Egt].
    apply Qeq_bool_iff in Eeq. cbn [fst snd]. split.
    + split; cbn [size_so_far minibatch length]; [reflexivity | lia].
    + intros b [= <-]. split; [lia|]. left. rewrite Eeq. apply Qle_refl.
  - destruct (Qgtb (batch_cost fn m') _ && (len m' >? world_size + 1)) eqn:E2.
    + apply andb_true_iff in E2 as [_ Egt]. cbn [fst snd].
      subst m'. rewrite slice_to_snoc, slice_from_snoc. split.
      * split; cbn [size_so_far minibatch length]; [reflexivity | lia].
      * intros b [= <-]. split; [lia|].
        destruct (Z.eq_dec (len (minibatch st)) (world_size + 1)) as [|Hne];
          [now right|left].
        rewrite <- Hcost. apply Hkeep. lia.
    + cbn [fst snd]. split; [|discriminate].
      split; cbn [size_so_far minibatch]; [reflexivity|].
      intros Hlong. apply andb_false_iff in E2 as [E2|E2].
      * now apply Qgtb_false.
      * lia.
Qed.

Lemma fetch_loop_inv (reserve : bool) (data : list A) :
  forall it st,
    0 <= world_size -> inv batch_size fn world_size st ->
    Forall (emitted_ok batch_size fn world_size)
      (fst (fetch_loop batch_size fn world_size reserve it data st)) /\
    inv batch_size fn world_size
        (snd (fetch_loop batch_size fn world_size reserve it data st)).
Proof.
  induction data as [|ex data IH]; intros it st HW Hinv.
  - cbn. split; [constructor | assumption].
  - cbn [fetch_loop].
    destruct (fetch_step_inv reserve it ex st HW Hinv) as [Hinv' Hy].
    destruct (fetch_step batch_size fn world_size reserve it ex st)
      as [y st'].
    cbn [fst snd] in Hinv', Hy.
    destruct (IH (it + 1) st' HW Hinv') as [Hys Hinv''].
    destruct (fetch_loop batch_size fn world_size reserve (it + 1) data st')
      as [ys st''].
    cbn [fst snd] in *. split; [|assumption].
    destruct y as [b|]; [constructor; auto | assumption].
Qed.

End Facts.

Lemma fetch_batch_loop {A : Type} (data : list A) (batch_size : Z)
    (batch_size_fn : option (cost_fn A)) (world_size : Z) (reserve : bool) :
  fetch_batch data batch_size batch_size_fn world_size reserve
  = fst (fetch_loop batch_size (or_default batch_size_fn) world_size reserve
                    0 data initial)
    ++ [final_batch reserve
          (snd (fetch_loop batch_size (or_default batch_size_fn) world_size
                           reserve 0 data initial))].
Proof.
  unfold fetch_batch.
  now destruct (fetch_loop _ _ _ _ _ _ _).
Qed.

Lemma non_final_batches_loop {A : Type} (data : list A) (batch_size : Z)
    (batch_size_fn : option (cost_fn A)) (world_size : Z) (reserve : bool) :
  non_final_batches data batch_size batch_size_fn world_size reserve
  = fst (fetch_loop batch_size (or_default batch_size_fn) world_size reserve
                    0 data initial).
Proof.
  unfold non_final_batches. rewrite fetch_batch_loop.
  apply removelast_last.
Qed.

End AssemblerFacts.

(** ** The cost functions *)

Module CostFacts.

Import Assembler AssemblerFacts Cost.

Lemma py_max2_inject (a b : Z) :
  py_max2 (inject_Z a) (inject_Z b) = inject_Z (Z.max a b).
Proof.
  unfold py_max2. destruct (Qle_bool (inject_Z b) (inject_Z a)) eqn:E.
  - apply Qle_bool_iff in E. rewrite <- Zle_Qle in E.
    now rewrite Z.max_l by assumption.
  - assert (a < b).
    { destruct (Z.lt_ge_cases a b) as [|Hge]; [assumption|].
      rewrite Zle_Qle in Hge. apply Qle_bool_iff in Hge. congruence. }
    now rewrite Z.max_r by lia.
Qed.

Lemma py_max2_compat (a b b' : Q) :
  (b == b')%Q -> (py_max2 a b == py_max2 a b')%Q.
Proof.
  intros Hb. unfold py_max2. rewrite (Qleb_comp b b' Hb a a (Qeq_refl a)).
  now destruct (Qle_bool b' a).
Qed.

Section WithToken.

Context {token : Type}.

Abbreviation Ex := (Example token) (only parsing).

Lemma batch_sum_len_snoc (m : list Ex) (ex : Ex) :
  batch_sum_len token (m ++ [ex])
  = batch_sum_len token m + max_field_len token ex.
Proof.
  unfold batch_sum_len. induction m as [|x m IH]; cbn in *; lia.
Qed.

Lemma batch_max_len_snoc (m : list Ex) (ex : Ex) :
  batch_max_len token (m ++ [ex])
  = Z.max (max_field_len token ex) (batch_max_len token m).
Proof.
  unfold batch_max_len. induction m as [|x m IH]; cbn in *; lia.
Qed.

Lemma count_cost (batch : list Ex) :
  batch_cost (count_batch_size_fn token) batch = inject_Z (len batch).
Proof.
  induction batch as [|ex m _] using rev_ind; [reflexivity|].
  now rewrite batch_cost_snoc.
Qed.

Lemma without_padding_step (new : Ex) (i : Z) (sofar : Q) :
  dyn_batch_without_padding token new i sofar
  = (sofar + inject_Z (max_field_len token new))%Q.
Proof.
  unfold dyn_batch_without_padding. now rewrite py_max2_inject.
Qed.

Lemma without_padding_cost (batch : list Ex) :
  (batch_cost (dyn_batch_without_padding token) batch
   == inject_Z (batch_sum_len token batch))%Q.
Proof.
  induction batch as [|ex m IH] using rev_ind; [reflexivity|].
  rewrite batch_cost_snoc, without_padding_step, IH, batch_sum_len_snoc.
  now rewrite inject_Z_plus.
Qed.

Lemma with_padding_step (new : Ex) (n M : Z) (sofar : Q) :
  0 <= n -> (n = 0 -> M = 0) -> (sofar == inject_Z (M * n)%Z)%Q ->
  (dyn_batch_with_padding token new (n + 1)%Z sofar
   == inject_Z (Z.max (max_field_len token new) M * (n + 1))%Z)%Q.
Proof.
  intros Hn HM Hsofar. unfold dyn_batch_with_padding, py_max3.
  rewrite py_max2_inject. fold (max_field_len token new).
  rewrite inject_Z_mult. apply Qmult_comp; [|reflexivity].
  rewrite <- py_max2_inject. apply py_max2_compat.
  destruct (n + 1 >? 1) eqn:E.
  - replace (n + 1 - 1) with n by lia.
    rewrite Hsofar, inject_Z_mult. apply Qdiv_mult_l.
    intros H0. change 0%Q with (inject_Z 0) in H0.
    rewrite inject_Z_injective in H0. lia.
  - assert (n = 0) by lia. rewrite HM by assumption. reflexivity.
Qed.

Lemma with_padding_cost (batch : list Ex) :
  (batch_cost (dyn_batch_with_padding token) batch
   == inject_Z (batch_max_len token batch * len batch)%Z)%Q.
Proof.
  induction batch as [|ex m IH] using rev_ind; [reflexivity|].
  rewrite batch_cost_snoc, batch_max_len_snoc.
  replace (len (m ++ [ex])) with (len m + 1)
    by (rewrite length_app; cbn [length]; lia).
  apply with_padding_step; [lia | | exact IH].
  intros H0. destruct m; [reflexivity | discriminate].
Qed.

(** C9. The count policy returns the position in the batch, so a batch
    costs its length; [dyn_batch_without_padding] adds the longest field of
    the new example to the cost so far, so a batch costs the sum of its
    examples' longest fields; [dyn_batch_with_padding], applied along a
    batch from cost 0 with the exact quotient [sofar / (i - 1)], gives the
    longest field seen so far times the number of examples seen. *)
Theorem cost_functions_meaning :
  (forall (new : Ex) (count : Z) (sofar : Q),
      count_batch_size_fn token new count sofar = inject_Z count) /\
  (forall (new : Ex) (count : Z) (sofar : Q),
      default_batch_size_fn new count sofar = inject_Z count) /\
  (forall batch : list Ex,
      batch_cost (count_batch_size_fn token) batch = inject_Z (len batch)) /\
  (forall (new : Ex) (i : Z) (sofar : Q),
      dyn_batch_without_padding token new i sofar
      = (sofar + inject_Z (Z.max (len (src new)) (len (trg new))))%Q) /\
  (forall batch : list Ex,
      (batch_cost (dyn_batch_without_padding token) batch
       == inject_Z (batch_sum_len token batch))%Q) /\
  (forall batch : list Ex,
      (batch_cost (dyn_batch_with_padding token) batch
       == inject_Z (batch_max_len token batch) * inject_Z (len batch))%Q).
Proof.
  refine (conj _ (conj _ (conj _ (conj _ (conj _ _))))).
  - reflexivity.
  - reflexivity.
  - exact count_cost.
  - exact without_padding_step.
  - exact without_padding_cost.
  - intros batch. rewrite <- inject_Z_mult. apply with_padding_cost.
Qed.

Lemma without_padding_monotone :
  monotone (dyn_batch_without_padding token).
Proof.
  intros batch ex. rewrite batch_cost_snoc, without_padding_step.
  rewrite <- (Qplus_0_r (batch_cost _ batch)) at 1.
  apply Qplus_le_compat; [apply Qle_refl|].
  change 0%Q with (inject_Z 0). rewrite <- Zle_Qle.
  unfold max_field_len. lia.
Qed.

End WithToken.

End CostFacts.

(** ** What the assembler yields *)

Module AssemblerClaims.

Import PyList PyListFacts Shard Assembler AssemblerFacts Cost CostFacts.

(** C4, as the code has it.  For [world_size >= 0], every cost function and
    every input, each batch yielded before the final one has more than
    [world_size] examples, and its accumulated cost is at most
    [batch_size * world_size] unless it has exactly [world_size + 1]
    examples. *)
Theorem non_final_batches_bounded {A : Type} (data : list A) (batch_size : Z)
    (batch_size_fn : option (cost_fn A)) (world_size : Z) (reserve : bool) :
  0 <= world_size ->
  forall b,
    In b (non_final_batches data batch_size batch_size_fn world_size reserve) ->
    world_size < len b /\
    ((batch_cost (or_default batch_size_fn) b
      <= inject_Z (batch_size * world_size))%Q \/
     len b = world_size + 1).
Proof.
  intros HW b Hb. rewrite non_final_batches_loop in Hb.
  pose proof (fetch_loop_inv batch_size (or_default batch_size_fn) world_size
                reserve data 0 initial HW) as [Hall _].
  { split; [reflexivity|]. cbn. lia. }
  rewrite Forall_forall in Hall. exact (Hall b Hb).
Qed.

Lemma non_final_batches_bounded_witness :
  2 < len [1; 2; 3; 4; 5; 6] /\
  ((batch_cost (or_default None) [1; 2; 3; 4; 5; 6] <= inject_Z (3 * 2))%Q \/
   len [1; 2; 3; 4; 5; 6] = 2 + 1).
Proof.
  apply (non_final_batches_bounded [1; 2; 3; 4; 5; 6; 7] 3 None 2 false).
  - lia.
  - vm_compute. left. reflexivity.
Defined.

(** C4, as stated, fails.  With the length-sum cost, target 5 and two ranks,
    the examples of longest fields 6, 6, 6, 1 give a first batch of three
    examples and cost 18 > 10; without its last example it still costs 12. *)
Lemma cost_bound_counterexample :
  let long := mk_example [1; 2; 3; 4; 5; 6] [1] in
  let short := mk_example [1] [1] in
  let fn := dyn_batch_without_padding Z in
  let b := [long; long; long] in
  monotone fn /\
  In b (non_final_batches [long; long; long; short] 5 (Some fn) 2 false) /\
  ~ (batch_cost fn b <= inject_Z (5 * 2))%Q /\
  ~ (batch_cost fn (removelast b) <= inject_Z (5 * 2))%Q.
Proof.
  cbv zeta. refine (conj _ (conj _ (conj _ _))).
  - apply without_padding_monotone.
  - vm_compute. left. reflexivity.
  - intros H. vm_compute in H. now apply H.
  - intros H. vm_compute in H. now apply H.
Qed.

Section Reserve.

Context {A : Type}.
Variables (batch_size : Z) (fn : cost_fn A) (world_size : Z).

Lemma reserve_phase (pre rest : list A) :
  forall it m s r,
    it + len pre <= world_size ->
    fetch_loop batch_size fn world_size true it (pre ++ rest)
               (mk_state m s r)
    = fetch_loop batch_size fn world_size true (it + len pre) rest
                 (mk_state m s (r ++ pre)).
Proof.
  induction pre as [|x pre IH]; intros it m s r Hit.
  - cbn [app length]. now rewrite Z.add_0_r, app_nil_r.
  - cbn [length] in Hit. cbn [app fetch_loop]. unfold fetch_step.
    replace (it <? world_size) with true
      by (symmetry; apply Z.ltb_lt; lia).
    cbn [andb minibatch size_so_far reserved_minibatch].
    rewrite IH by lia.
    replace (it + 1 + len pre) with (it + len (x :: pre))
      by (cbn [length]; lia).
    rewrite <- app_assoc. cbn [app].
    now destruct (fetch_loop _ _ _ _ _ _ _).
Qed.

Lemma fetch_step_past_reserve (it it' : Z) (ex : A) (m : list A) (s : Q)
    (r r' : list A) :
  world_size <= it ->
  exists y m2 s2,
    fetch_step batch_size fn world_size true it ex (mk_state m s r)
    = (y, mk_state m2 s2 r) /\
    fetch_step batch_size fn world_size false it' ex (mk_state m s r')
    = (y, mk_state m2 s2 r').
Proof.
  intros Hit. unfold fetch_step.
  replace (it <? world_size) with false
    by (symmetry; apply Z.ltb_ge; lia).
  cbn [andb minibatch size_so_far reserved_minibatch].
  destruct (Qeq_bool _ _ && _); [|destruct (Qgtb _ _ && _)];
    do 3 eexists; split; reflexivity.
Qed.

Lemma fetch_loop_past_reserve (data : list A) :
  forall it it' m s r r',
    world_size <= it ->
    exists ys m2 s2,
      fetch_loop batch_size fn world_size true it data (mk_state m s r)
      = (ys, mk_state m2 s2 r) /\
      fetch_loop batch_size fn world_size false it' data (mk_state m s r')
      = (ys, mk_state m2 s2 r').
Proof.
  induction data as [|ex data IH]; intros it it' m s r r' Hit.
  - cbn. do 3 eexists. split; reflexivity.
  - cbn [fetch_loop].
    destruct (fetch_step_past_reserve it it' ex m s r r' Hit)
      as (y & m1 & s1 & -> & ->).
    destruct (IH (it + 1) (it' + 1) m1 s1 r r' ltac:(lia))
      as (ys & m2 & s2 & -> & ->).
    do 3 eexists. split; reflexivity.
Qed.

End Reserve.

(** C5. With [reserve=True] and at least [world_size] examples, the first
    [world_size] examples take no part in the batching: the batches are those
    of the remaining examples batched without reserve, except that the last
    batch has the reserved examples appended, and so has at least
    [world_size] examples. *)
Theorem reserve_appended_to_last {A : Type} (data : list A) (batch_size : Z)
    (batch_size_fn : option (cost_fn A)) (world_size : Z) :
  world_size <= len data ->
  let reserved := firstn (Z.to_nat world_size) data in
  let rest := skipn (Z.to_nat world_size) data in
  exists earlier last,
    fetch_batch rest batch_size batch_size_fn world_size false
    = earlier ++ [last] /\
    fetch_batch data batch_size batch_size_fn world_size true
    = earlier ++ [last ++ reserved] /\
    world_size <= len (last ++ reserved).
Proof.
  intros Hlen reserved rest.
  assert (Hdata : data = reserved ++ rest)
    by (symmetry; apply firstn_skipn).
  assert (Hres : len reserved = Z.max 0 world_size).
  { subst reserved. rewrite length_firstn. lia. }
  set (fn := or_default batch_size_fn).
  assert (Hloop : exists ys m2 s2,
    fetch_loop batch_size fn world_size true 0 (reserved ++ rest) initial
    = (ys, mk_state m2 s2 reserved) /\
    fetch_loop batch_size fn world_size false 0 rest initial
    = (ys, mk_state m2 s2 [])).
  { clear Hdata. clearbody reserved rest.
    destruct (Z.le_gt_cases world_size 0) as [Hle|Hgt].
    - assert (Hnil : reserved = []).
      { destruct reserved; [reflexivity | cbn [length] in Hres; lia]. }
      subst reserved. cbn [app].
      apply fetch_loop_past_reserve. lia.
    - unfold initial.
      rewrite reserve_phase by lia. cbn [app].
      apply fetch_loop_past_reserve. lia. }
  rewrite <- Hdata in Hloop.
  destruct Hloop as (ys & m2 & s2 & Htrue & Hfalse).
  exists ys, m2. unfold fetch_batch. fold fn.
  rewrite Htrue, Hfalse. cbn [final_batch minibatch reserved_minibatch].
  repeat split. rewrite length_app. lia.
Qed.

Lemma reserve_appended_to_last_witness :
  exists earlier last,
    fetch_batch [3; 4; 5; 6; 7] 3 None 2 false = earlier ++ [last] /\
    fetch_batch [1; 2; 3; 4; 5; 6; 7] 3 None 2 true
    = earlier ++ [last ++ [1; 2]] /\
    2 <= len (last ++ [1; 2]).
Proof.
  apply (reserve_appended_to_last [1; 2; 3; 4; 5; 6; 7] 3 None 2).
  cbn. lia.
Defined.

(** C8. Seven examples under the count policy with target 3 on two ranks:
    without reserve the batches have 6 and 1 examples; with reserve the final
    batch has at least 2 examples (it is the only one, with all 7); the batch
    of 6 splits into two shards of 3, rank 0 at [0, 3) and rank 1 at
    [3, 6). *)
Theorem seven_examples_scenario {A : Type} (a b c d e f g : A) :
  let data := [a; b; c; d; e; f; g] in
  fetch_batch data 3 None 2 false = [[a; b; c; d; e; f]; [g]] /\
  map (fun batch => len batch) (fetch_batch data 3 None 2 false) = [6; 1] /\
  fetch_batch data 3 None 2 true = [[c; d; e; f; g; a; b]] /\
  2 <= len (last (fetch_batch data 3 None 2 true) []) /\
  map (shard_size [a; b; c; d; e; f] 2) [0; 1] = [Ok 3; Ok 3] /\
  map (shard_bounds 6 2) [0; 1] = [Ok (0, 3); Ok (3, 6)] /\
  DistributedBatch [a; b; c; d; e; f] 2 0 = Ok [a; b; c] /\
  DistributedBatch [a; b; c; d; e; f] 2 1 = Ok [d; e; f].
Proof.
  cbv zeta.
  refine (conj _ (conj _ (conj _ (conj _ (conj _ (conj _ (conj _ _)))))));
    try reflexivity.
  vm_compute. discriminate.
Qed.

Section CountFill.

Context {A : Type}.
Variables (batch_size world_size : Z).
Hypothesis Hmore : world_size < batch_size * world_size.

(** Under the count policy a batch grows, without a yield, until it has
    [batch_size * world_size] examples, and is yielded whole then. *)
Lemma count_fill (rest : list A) :
  forall it m,
    rest <> [] ->
    len m + len rest = batch_size * world_size ->
    fetch_loop batch_size default_batch_size_fn world_size false it rest
               (mk_state m (inject_Z (len m)) [])
    = ([m ++ rest], initial).
Proof.
  induction rest as [|ex rest IH]; intros it m Hne Hlen; [congruence|].
  cbn [length] in Hlen. cbn [fetch_loop]. unfold fetch_step.
  cbn [andb minibatch size_so_far reserved_minibatch].
  unfold default_batch_size_fn at 1 2.
  rewrite Qeq_bool_inject, Qgtb_inject.
  assert (Hm : len (m ++ [ex]) = len m + 1)
    by (rewrite length_app; cbn [length]; lia).
  destruct rest as [|ex' rest].
  - cbn [length] in Hlen.
    replace (len (m ++ [ex]) =? batch_size * world_size) with true
      by (symmetry; apply Z.eqb_eq; lia).
    replace (len (m ++ [ex]) >? world_size) with true
      by (symmetry; apply Z.gtb_lt; lia).
    reflexivity.
  - cbn [length] in Hlen.
    replace (len (m ++ [ex]) =? batch_size * world_size) with false
      by (symmetry; apply Z.eqb_neq; lia).
    replace (len (m ++ [ex]) >? batch_size * world_size) with false
      by (symmetry; rewrite Z.gtb_ltb; apply Z.ltb_ge; lia).
    cbn [andb].
    change (default_batch_size_fn ex (len (m ++ [ex])) (inject_Z (len m)))
      with (inject_Z (len (m ++ [ex]))).
    rewrite (IH (it + 1) (m ++ [ex])); [|discriminate|cbn [length]; lia].
    now rewrite <- app_assoc.
Qed.

End CountFill.

Lemma DistributedBatch_nil {A : Type} (W R : Z) :
  W <> 0 -> DistributedBatch (@nil A) W R = Ok [].
Proof.
  intros HW. unfold DistributedBatch, shard_bounds, floor_div.
  apply Z.eqb_neq in HW. rewrite HW. cbn [bind fst snd].
  unfold slice. cbn [length]. now rewrite skipn_nil, firstn_nil.
Qed.

(** C10. Without reserve, under the count policy, an input of exactly
    [batch_size * world_size > world_size] examples is yielded whole as the
    first batch, and the batch yielded after the loop is empty; every rank's
    shard of that last batch is empty. *)
Theorem exhausted_input_yields_empty_batch {A : Type} (data : list A)
    (batch_size world_size : Z) :
  1 <= world_size ->
  world_size < batch_size * world_size ->
  len data = batch_size * world_size ->
  fetch_batch data batch_size None world_size false = [data; []] /\
  len (last (fetch_batch data batch_size None world_size false) data) = 0 /\
  forall R,
    0 <= R < world_size ->
    DistributedBatch
      (last (fetch_batch data batch_size None world_size false) data)
      world_size R
    = Ok [].
Proof.
  intros HW Hmore Hlen.
  assert (Hbatches :
    fetch_batch data batch_size None world_size false = [data; []]).
  { unfold fetch_batch, initial. cbn [or_default].
    change 0%Q with (inject_Z (len (@nil A))).
    rewrite count_fill; [reflexivity | assumption | | cbn [length]; lia].
    intros ->. cbn [length] in Hlen. lia. }
  rewrite Hbatches. cbn [last length].
  refine (conj eq_refl (conj eq_refl _)).
  intros R HR. apply DistributedBatch_nil. lia.
Qed.

Lemma exhausted_input_yields_empty_batch_witness :
  fetch_batch [1; 2; 3; 4; 5; 6] 3 None 2 false = [[1; 2; 3; 4; 5; 6]; []] /\
  forall R,
    0 <= R < 2 ->
    DistributedBatch
      (last (fetch_batch [1; 2; 3; 4; 5; 6] 3 None 2 false)
            [1; 2; 3; 4; 5; 6]) 2 R
    = Ok [].
Proof.
  pose proof (exhausted_input_yields_empty_batch [1; 2; 3; 4; 5; 6] 3 2
                ltac:(lia) ltac:(lia) ltac:(cbn; lia)) as (H1 & _ & H3).
  exact (conj H1 H3).
Defined.

End AssemblerClaims.

(** ** The resumable epoch loop *)

Module IteratorFacts.

Import Shard Iterator.


Section Facts.

Context {A : Type}.


Lemma same_config_advance_r (s1 s2 : iterator A) :
  same_config s1 s2 -> same_config s1 (advance s2).
Proof. intros H. exact H. Qed.




Lemma per_rank_same_config (s1 s2 : iterator A) (minibatch : list A) :
  same_config s1 s2 -> per_rank s1 minibatch = per_rank s2 minibatch.
Proof.
  intros (Hk & Hs & Hr & Hw). unfold per_rank.
  now rewrite Hk, Hs, Hr, Hw.
Qed.



End Facts.



End IteratorFacts.

(** ** The reader's filter *)

Module ReaderFacts.

Import Reader.

Lemma length_flag_spec (m : Z) (lines : list str) :
  (length_flag m lines =? 1)
  = negb (forallb (fun line => len (split line) <=? m) lines).
Proof.
  induction lines as [|line lines IH]; [reflexivity|].
  cbn [length_flag forallb].
  rewrite Z.gtb_ltb, Z.ltb_antisym.
  destruct (len (split line) <=? m); [exact IH | reflexivity].
Qed.

Lemma is_empty_spec (line : str) : is_empty line = false <-> line <> [].
Proof. destruct line; cbn; split; congruence. Qed.

Lemma any_empty_spec (lines : list str) :
  negb (existsb is_empty lines)
  = forallb (fun line => negb (is_empty line)) lines.
Proof.
  induction lines as [|line lines IH]; [reflexivity|].
  cbn [existsb forallb]. rewrite negb_orb. now rewrite IH.
Qed.

(** The boolean test decides the stated one. *)
Lemma survivesb_spec (max_len : option Z) (lines : list str) :
  survivesb max_len lines = true <-> survives max_len lines.
Proof.
  unfold survivesb, survives.
  rewrite andb_true_iff, forallb_forall, Forall_forall.
  assert (Hempty :
    (forall line, In line lines -> negb (is_empty line) = true) <->
    (forall line, In line lines -> line <> [])).
  { split; intros H line Hin.
    - specialize (H line Hin). apply negb_true_iff in H.
      now apply is_empty_spec.
    - apply negb_true_iff. apply is_empty_spec. now apply H. }
  assert (Hlong :
    match max_len with
    | Some m => forallb (fun line => len (split line) <=? m) lines
    | None => true
    end = true <->
    (forall m, max_len = Some m ->
               Forall (fun line => len (split line) <= m) lines)).
  { destruct max_len as [m|].
    - rewrite forallb_forall. split.
      + intros H m' [= <-]. apply Forall_forall. intros line Hin.
        apply Z.leb_le. now apply H.
      + intros H line Hin. apply Z.leb_le.
        specialize (H m eq_refl). rewrite Forall_forall in H. now apply H.
    - split; [discriminate | reflexivity]. }
  now rewrite Hempty, Hlong.
Qed.

Lemma flush_spec (buffer : Z) (st : state) :
  buffer <> 0 ->
  exists ys st',
    flush buffer st = (ys, Ok st') /\
    ys ++ examples st' = examples st /\
    out_step st' = out_step st.
Proof.
  intros Hb. unfold flush, py_mod.
  apply Z.eqb_neq in Hb. rewrite Hb.
  destruct ((out_step st mod buffer =? 0) && (out_step st >? 0)).
  - do 2 eexists. split; [reflexivity|]. cbn. now rewrite app_nil_r.
  - do 2 eexists. split; [reflexivity|]. now cbn.
Qed.

Lemma reader_step_spec (max_len : option Z) (buffer : Z) (st : state)
    (lines : list str) :
  buffer <> 0 ->
  exists ys st',
    reader_step max_len buffer st lines = (ys, Ok st') /\
    ys ++ examples st'
    = examples st ++ filter (survivesb max_len) [map strip lines].
Proof.
  intros Hb. unfold reader_step, survivesb. cbn [filter].
  rewrite any_empty_spec.
  destruct (forallb _ (map strip lines)); cbn [andb].
  - destruct max_len as [m|].
    + rewrite length_flag_spec.
      destruct (forallb _ (map strip lines)); cbn [negb].
      * destruct (flush_spec buffer
                    (mk_state (examples st ++ [map strip lines])
                              (out_step st + 1)) Hb)
          as (ys & st' & -> & Hys & _).
        exists ys, st'. split; [reflexivity | exact Hys].
      * exists [], st. split; [reflexivity|]. now rewrite app_nil_r.
    + change (0 =? 1) with false. cbv iota.
      destruct (flush_spec buffer
                  (mk_state (examples st ++ [map strip lines])
                            (out_step st + 1)) Hb)
        as (ys & st' & -> & Hys & _).
      exists ys, st'. split; [reflexivity | exact Hys].
  - destruct (flush_spec buffer st Hb) as (ys & st' & -> & Hys & _).
    exists ys, st'. split; [reflexivity|]. now rewrite app_nil_r.
Qed.

Lemma succ_mod (o b : Z) :
  0 < b -> 0 <= o -> (o + 1) mod b <> 0 -> (o + 1) mod b = o mod b + 1.
Proof.
  intros Hb Ho Hne.
  pose proof (Z.mod_pos_bound o b Hb).
  pose proof (Z.div_mod o b ltac:(lia)).
  destruct (Z.eq_dec (o mod b + 1) b) as [E|E].
  - exfalso. apply Hne. symmetry.
    apply (Z.mod_unique_pos (o + 1) b (o / b + 1)); lia.
  - symmetry. apply (Z.mod_unique_pos (o + 1) b (o / b)); lia.
Qed.

Lemma flush_buffered (buffer : Z) (st st' : state) (ys : list Example) :
  0 < buffer -> 0 <= out_step st ->
  len (examples st) = out_step st mod buffer \/
  (out_step st mod buffer = 0 /\ 0 < out_step st) ->
  flush buffer st = (ys, Ok st') ->
  buffered buffer st' /\ out_step st' = out_step st.
Proof.
  intros Hb Ho Hlen. unfold flush, py_mod, buffered.
  replace (buffer =? 0) with false by (symmetry; apply Z.eqb_neq; lia).
  destruct ((out_step st mod buffer =? 0) && (out_step st >? 0)) eqn:E;
    intros [= <- <-].
  - apply andb_true_iff in E as [E _]. apply Z.eqb_eq in E.
    cbn [out_step examples length]. lia.
  - apply andb_false_iff in E.
    destruct Hlen as [Hlen|[H0 Hpos]]; [lia|].
    destruct E as [E|E]; [apply Z.eqb_neq in E | rewrite Z.gtb_ltb in E;
                                                 apply Z.ltb_ge in E]; lia.
Qed.

Lemma reader_step_buffered (max_len : option Z) (buffer : Z) (st st' : state)
    (lines : list str) (ys : list Example) :
  0 < buffer -> buffered buffer st ->
  reader_step max_len buffer st lines = (ys, Ok st') ->
  buffered buffer st' /\
  out_step st'
  = out_step st + len (filter (survivesb max_len) [map strip lines]).
Proof.
  intros Hb [Ho Hlen]. unfold reader_step, survivesb. cbn [filter].
  rewrite any_empty_spec.
  assert (Hkeep : forall ys st',
    flush buffer (mk_state (examples st ++ [map strip lines])
                           (out_step st + 1)) = (ys, Ok st') ->
    buffered buffer st' /\ out_step st' = out_step st + 1).
  { intros ys0 st0 H.
    apply flush_buffered in H; [exact H | lia | cbn [out_step]; lia |].
    cbn [out_step examples]. rewrite length_app. cbn [length].
    destruct (Z.eq_dec ((out_step st + 1) mod buffer) 0) as [E|E].
    - right. lia.
    - left. rewrite succ_mod by lia. lia. }
  assert (Hdrop : forall ys st',
    flush buffer st = (ys, Ok st') ->
    buffered buffer st' /\ out_step st' = out_step st + 0).
  { intros ys0 st0 H. apply flush_buffered in H; [|lia|lia|now left].
    now rewrite Z.add_0_r. }
  destruct (forallb _ (map strip lines)); cbn [andb].
  - destruct max_len as [m|].
    + rewrite length_flag_spec.
      destruct (forallb _ (map strip lines)); cbn [negb length].
      * apply Hkeep.
      * intros [= <- <-]. split; [now split | lia].
    + change (0 =? 1) with false. cbv iota. cbn [length]. apply Hkeep.
  - cbn [length]. apply Hdrop.
Qed.

Lemma lazy_reader_buffered (max_len : option Z) (buffer : Z)
    (tuples : list (list str)) :
  forall (st st' : state) (ys : list Example),
    0 < buffer -> buffered buffer st ->
    lazy_reader max_len buffer st tuples = (ys, Ok st') ->
    buffered buffer st' /\
    out_step st'
    = out_step st
      + len (filter (survivesb max_len) (map (map strip) tuples)).
Proof.
  induction tuples as [|lines tuples IH]; intros st st' ys Hb Hst.
  - intros [= <- <-]. cbn [map filter length]. split; [assumption | lia].
  - cbn [lazy_reader].
    destruct (reader_step_spec max_len buffer st lines ltac:(lia))
      as (ys1 & st1 & Hstep & _).
    rewrite Hstep.
    destruct (reader_step_buffered _ _ _ _ _ _ Hb Hst Hstep) as [Hst1 Ho1].
    destruct (lazy_reader max_len buffer st1 tuples) as [ys2 r] eqn:Hrest.
    intros [= <- ->].
    destruct (IH st1 st' ys2 Hb Hst1 Hrest) as [Hst' Ho'].
    split; [assumption|].
    change (map (map strip) (lines :: tuples))
      with ([map strip lines] ++ map (map strip) tuples).
    rewrite filter_app, length_app. lia.
Qed.

(** C7. Reading the aligned tuples (with a buffer size other than 0) raises
    nothing, and the examples yielded, followed by those still buffered, are
    the ones buffered before followed by exactly the stripped tuples in which
    no field is empty and, when [max_len] is given, no field has more than
    [max_len] whitespace-separated tokens; the other tuples leave no trace.
    With a positive buffer size the examples still buffered are
    [out_step % buffer] many, fewer than [buffer]: a surviving tuple is
    yielded with the flush that follows it. *)
Theorem lazy_reader_filter (max_len : option Z) (buffer : Z) (st : state)
    (tuples : list (list str)) :
  buffer <> 0 ->
  let kept := filter (survivesb max_len) (map (map strip) tuples) in
  exists yielded st',
    lazy_reader max_len buffer st tuples = (yielded, Ok st') /\
    yielded ++ examples st' = examples st ++ kept /\
    (forall lines,
        In lines kept <->
        In lines (map (map strip) tuples) /\ survives max_len lines) /\
    (0 < buffer -> buffered buffer st ->
     out_step st' = out_step st + len kept /\
     len (examples st') = out_step st' mod buffer /\
     len (examples st') < buffer).
Proof.
  intros Hb kept.
  assert (Hrun : exists yielded st',
    lazy_reader max_len buffer st tuples = (yielded, Ok st') /\
    yielded ++ examples st' = examples st ++ kept).
  { subst kept. revert st. induction tuples as [|lines tuples IH]; intros st.
    - exists [], st. split; [reflexivity|]. cbn. now rewrite app_nil_r.
    - cbn [lazy_reader].
      destruct (reader_step_spec max_len buffer st lines Hb)
        as (ys & st1 & -> & Hys).
      destruct (IH st1) as (ys' & st2 & -> & Hys').
      exists (ys ++ ys'), st2. split; [reflexivity|].
      rewrite <- app_assoc, Hys'.
      change (map (map strip) (lines :: tuples))
        with ([map strip lines] ++ map (map strip) tuples).
      rewrite filter_app, !app_assoc. now rewrite Hys. }
  destruct Hrun as (yielded & st' & Hrun & Hkept).
  exists yielded, st'. refine (conj Hrun (conj Hkept (conj _ _))).
  - intros lines. subst kept. rewrite filter_In. now rewrite survivesb_spec.
  - intros Hpos Hst.
    destruct (lazy_reader_buffered _ _ _ _ _ _ Hpos Hst Hrun) as [[_ Hn] Ho].
    pose proof (Z.mod_pos_bound (out_step st') buffer Hpos).
    fold kept in Ho. lia.
Qed.

Import String.

Lemma lazy_reader_filter_witness :
  exists yielded st',
    lazy_reader (Some 2) 2 initial
      [[text "a b "; text "c"]; [[160]; text "x"];
       [text "a" ++ [160] ++ text "b c"; text "d"];
       [text "e"; [12288] ++ text "f"]; [text "g"; text "h"]]
    = (yielded, Ok st') /\
    yielded ++ examples st'
    = [[text "a b"; text "c"]; [text "e"; text "f"];
       [text "g"; text "h"]] /\
    out_step st' = 3 /\
    len (examples st') = 1.
Proof.
  destruct (lazy_reader_filter (Some 2) 2 initial
    [[text "a b "; text "c"]; [[160]; text "x"];
     [text "a" ++ [160] ++ text "b c"; text "d"];
     [text "e"; [12288] ++ text "f"]; [text "g"; text "h"]]
    ltac:(lia)) as (yielded & st' & Hrun & Hkept & _ & Hbuf).
  destruct (Hbuf ltac:(lia) ltac:(split; cbn; lia)) as (Ho & Hn & _).
  cbn in Ho. rewrite Ho in Hn.
  exists yielded, st'. exact (conj Hrun (conj Hkept (conj Ho Hn))).
Defined.

End ReaderFacts.

(** ** More about the splitter *)

Module ShardMore.

Import PyList PyListFacts Shard ShardFacts.

(** The shards are balanced: for [world_size >= 1], a lower rank never gets
    fewer examples than a higher one, and never more than one more. *)
Theorem shards_balanced {A : Type} (data : list A) (W R R' : Z) :
  1 <= W -> 0 <= R -> R <= R' -> R' < W ->
  exists n n',
    shard_size data W R = Ok n /\
    shard_size data W R' = Ok n' /\
    n' <= n <= n' + 1.
Proof.
  intros HW HR HRR HR'.
  rewrite !shard_size_step by lia.
  do 2 eexists. split; [reflexivity|]. split; [reflexivity|].
  rewrite !cut_step by lia.
  destruct (R <? _) eqn:E; destruct (R' <? _) eqn:E'; lia.
Qed.

Lemma shards_balanced_witness :
  exists n n',
    shard_size [1; 2; 3; 4; 5; 6; 7] 3 0 = Ok n /\
    shard_size [1; 2; 3; 4; 5; 6; 7] 3 2 = Ok n' /\
    n' <= n <= n' + 1.
Proof.
  apply (shards_balanced [1; 2; 3; 4; 5; 6; 7] 3 0 2); lia.
Defined.

(** The slice of a batch shorter than [world_size]: the one example at
    position [R], if there is one. *)
Lemma short_batch_slice {A : Type} (data : list A) (W R : Z) :
  len data < W -> 0 <= R < W ->
  DistributedBatch data W R = Ok (firstn 1 (skipn (Z.to_nat R) data)).
Proof.
  intros HB HR.
  assert (Hdiv : len data / W = 0) by (apply Z.div_small; lia).
  unfold DistributedBatch. rewrite shard_bounds_cut by lia.
  cbn [bind fst snd]. f_equal. unfold cut. rewrite Hdiv.
  rewrite !Z.mul_0_l, !Z.mul_0_r, !Z.add_0_r, Z.sub_0_r.
  destruct (Z.lt_ge_cases R (len data)) as [Hin|Hout].
  - rewrite slice_inside by lia.
    rewrite Z.min_l, Z.min_l by lia.
    now replace (Z.to_nat (R + 1 - R)) with 1%nat by lia.
  - rewrite slice_inside by lia.
    rewrite !Z.min_r by lia. rewrite Z.sub_diag.
    rewrite !skipn_all2 by lia. now rewrite !firstn_nil.
Qed.

(** The slice of a rank at or beyond [world_size] is empty. *)
Lemma beyond_world_size_slice {A : Type} (data : list A) (W R : Z) :
  1 <= W -> W <= R -> DistributedBatch data W R = Ok [].
Proof.
  intros HW HR. unfold DistributedBatch.
  rewrite shard_bounds_cut by lia. cbn [bind fst snd]. f_equal.
  set (B := len data).
  assert (HB : 0 <= B) by lia.
  pose proof (base_nonneg B W HB HW) as Hbase.
  pose proof (remainder_bound B W HW) as Hrem.
  assert (Hlo : B <= cut B W R).
  { rewrite <- (cut_W B W HW) at 1. unfold cut.
    assert (W * (B / W) <= R * (B / W))
      by (apply Z.mul_le_mono_nonneg_r; lia).
    lia. }
  assert (Hhi : B <= cut B W (R + 1)).
  { pose proof (cut_mono B W HB HW R). lia. }
  unfold slice, clamp. fold B.
  destruct (cut B W R <? 0) eqn:E1; [apply Z.ltb_lt in E1; lia|].
  destruct (cut B W (R + 1) <? 0) eqn:E2; [apply Z.ltb_lt in E2; lia|].
  rewrite !Z.min_r by lia. rewrite Z.sub_diag. reflexivity.
Qed.

Section Fields.

Import Batch.

Context {A X T : Type}.

Implicit Types (fields : list (option (field A X T))) (data : list A).

(** A field whose [process] raises makes the loop over the fields raise:
    its own exception, or that of an earlier field. *)
Lemma process_fields_raises fields data (f : field A X T) (e : exn) :
  In (Some f) fields ->
  process f (map (attr f) data) = Raise e ->
  exists e', process_fields fields data = Raise e'.
Proof.
  intros Hin Hf. induction fields as [|[g|] fields IH].
  - inversion Hin.
  - cbn [process_fields]. destruct Hin as [[= ->]|Hin].
    + rewrite Hf. now exists e.
    + destruct (process g (map (attr g) data)) as [t|e0]; cbn [bind].
      * destruct (IH Hin) as [e' ->]. now exists e'.
      * now exists e0.
  - destruct Hin as [Hin|Hin]; [discriminate|]. cbn [process_fields].
    now apply IH.
Qed.

(** The constructor of a rank whose slice is empty. *)
Lemma empty_slice fields data (W R : Z) :
  DistributedBatch data W R = Ok [] ->
  __init__ fields data W R = of_slice fields [] /\
  (forall f e,
      In (Some f) fields -> process f [] = Raise e ->
      exists e', __init__ fields data W R = Raise e') /\
  (forall b, __init__ fields data W R = Ok b -> batch_size b = 0).
Proof.
  intros Hslice.
  assert (H : __init__ fields data W R = of_slice fields []).
  { unfold __init__. now rewrite Hslice. }
  rewrite H. split; [reflexivity|]. unfold of_slice. split.
  - intros f e Hin Hf.
    destruct (process_fields_raises fields [] f e Hin Hf) as [e' ->].
    now exists e'.
  - intros b. destruct (process_fields fields []); cbn [bind]; [|discriminate].
    now intros [= <-].
Qed.

(** A batch shorter than [world_size].  The constructor of rank [R] goes on
    with the one example at position [R], if there is one, and with no
    example otherwise.  With no example it raises as soon as the [process]
    of some field raises on an empty batch, and a batch it does return has
    [batch_size] 0. *)
Theorem short_batch_shards fields data (W R : Z) :
  len data < W -> 0 <= R < W ->
  __init__ fields data W R
  = of_slice fields (firstn 1 (skipn (Z.to_nat R) data)) /\
  (len data <= R ->
   __init__ fields data W R = of_slice fields [] /\
   (forall f e,
       In (Some f) fields -> process f [] = Raise e ->
       exists e', __init__ fields data W R = Raise e') /\
   (forall b, __init__ fields data W R = Ok b -> batch_size b = 0)).
Proof.
  intros HB HR. pose proof (short_batch_slice data W R HB HR) as Hslice.
  split.
  - unfold __init__. now rewrite Hslice.
  - intros Hout. apply empty_slice. rewrite Hslice.
    rewrite skipn_all2 by lia. reflexivity.
Qed.

(** A rank at or beyond [world_size] gets no example of any batch: its
    constructor goes on with the empty list, raises as soon as the
    [process] of some field raises on an empty batch, and returns a batch
    of [batch_size] 0 otherwise. *)
Theorem rank_beyond_world_size fields data (W R : Z) :
  1 <= W -> W <= R ->
  __init__ fields data W R = of_slice fields [] /\
  (forall f e,
      In (Some f) fields -> process f [] = Raise e ->
      exists e', __init__ fields data W R = Raise e') /\
  (forall b, __init__ fields data W R = Ok b -> batch_size b = 0).
Proof.
  intros HW HR. apply empty_slice. now apply beyond_world_size_slice.
Qed.

End Fields.

Lemma short_batch_shards_witness :
  Batch.__init__ [Some Batch.sample_field] [10; 20] 4 1
  = Ok (Batch.mk_batch 1 [1]) /\
  exists e', Batch.__init__ [Some Batch.sample_field] [10; 20] 4 3 = Raise e'.
Proof.
  split.
  - exact (proj1 (short_batch_shards [Some Batch.sample_field] [10; 20] 4 1
                    ltac:(cbn; lia) ltac:(lia))).
  - destruct (short_batch_shards [Some Batch.sample_field] [10; 20] 4 3
                ltac:(cbn; lia) ltac:(lia)) as [_ H].
    destruct (H ltac:(cbn; lia)) as (_ & Hraise & _).
    apply (Hraise Batch.sample_field ValueError); [now left | reflexivity].
Defined.

Lemma rank_beyond_world_size_witness :
  exists e',
    Batch.__init__ [Some Batch.sample_field] [1; 2; 3; 4; 5; 6; 7] 3 5 = Raise e'.
Proof.
  destruct (rank_beyond_world_size [Some Batch.sample_field]
              [1; 2; 3; 4; 5; 6; 7] 3 5 ltac:(lia) ltac:(lia))
    as (_ & Hraise & _).
  apply (Hraise Batch.sample_field ValueError); [now left | reflexivity].
Defined.

End ShardMore.

(** ** More about the assembler *)

Module AssemblerMore.

Import PyList PyListFacts Assembler AssemblerFacts AssemblerClaims.

Section Partition.

Context {A : Type}.
Variables (batch_size : Z) (fn : cost_fn A) (world_size : Z).

(** Without reserve, what has been yielded and what is being built are the
    input so far. *)
Lemma fetch_loop_concat (data : list A) :
  forall it st,
    concat (fst (fetch_loop batch_size fn world_size false it data st))
    ++ minibatch
         (snd (fetch_loop batch_size fn world_size false it data st))
    = minibatch st ++ data.
Proof.
  induction data as [|ex data IH]; intros it st.
  - cbn. now rewrite app_nil_r.
  - cbn [fetch_loop].
    assert (Hstep :
      exists y st',
        fetch_step batch_size fn world_size false it ex st = (y, st') /\
        match y with Some b => b | None => [] end ++ minibatch st'
        = minibatch st ++ [ex]).
    { unfold fetch_step. cbn [andb].
      destruct (Qeq_bool _ _ && _); [|destruct (Qgtb _ _ && _)];
        do 2 eexists; (split; [reflexivity|]); cbn [minibatch].
      - now rewrite app_nil_r.
      - rewrite slice_to_snoc, slice_from_snoc. reflexivity.
      - reflexivity. }
    destruct Hstep as (y & st' & -> & Hy).
    specialize (IH (it + 1) st').
    destruct (fetch_loop batch_size fn world_size false (it + 1) data st')
      as [ys st''].
    cbn [fst snd] in *.
    replace (minibatch st ++ ex :: data)
      with ((minibatch st ++ [ex]) ++ data)
      by (rewrite <- app_assoc; reflexivity).
    rewrite <- Hy, <- app_assoc, <- IH.
    destruct y as [b|]; cbn [concat app]; now rewrite ?app_assoc.
Qed.

End Partition.

Lemma fetch_batch_concat {A : Type} (data : list A) (batch_size : Z)
    (batch_size_fn : option (cost_fn A)) (world_size : Z) :
  concat (fetch_batch data batch_size batch_size_fn world_size false) = data /\
  concat (fetch_batch data batch_size batch_size_fn world_size true)
  = skipn (Z.to_nat world_size) data ++ firstn (Z.to_nat world_size) data.
Proof.
  set (fn := or_default batch_size_fn).
  assert (Hfalse : forall d,
    concat (fetch_batch d batch_size batch_size_fn world_size false) = d).
  { intros d. rewrite fetch_batch_loop. fold fn.
    rewrite concat_app. cbn [concat final_batch]. rewrite app_nil_r.
    apply (fetch_loop_concat batch_size fn world_size d 0 initial). }
  split; [apply Hfalse|].
  set (pre := firstn (Z.to_nat world_size) data).
  set (rest := skipn (Z.to_nat world_size) data).
  assert (Hdata : data = pre ++ rest) by (symmetry; apply firstn_skipn).
  assert (Hpre : len pre = Z.min (len data) (Z.max 0 world_size)).
  { subst pre. rewrite length_firstn. lia. }
  assert (Hrest : len rest = len data - len pre).
  { subst rest. rewrite length_skipn. lia. }
  assert (Hloop : exists ys m2 s2,
    fetch_loop batch_size fn world_size true 0 (pre ++ rest) initial
    = (ys, mk_state m2 s2 pre) /\
    concat ys ++ m2 = rest).
  { clear Hdata. clearbody pre rest.
    assert (Hpast : forall it,
      world_size <= it ->
      exists ys m2 s2,
        fetch_loop batch_size fn world_size true it rest
                   (mk_state [] 0%Q pre)
        = (ys, mk_state m2 s2 pre) /\
        concat ys ++ m2 = rest).
    { intros it Hit.
      destruct (fetch_loop_past_reserve batch_size fn world_size rest
                  it 0 [] 0%Q pre [] Hit) as (ys & m2 & s2 & Ht & Hf).
      exists ys, m2, s2. split; [exact Ht|].
      pose proof (fetch_loop_concat batch_size fn world_size rest 0
                    (mk_state [] 0%Q [])) as Hc.
      rewrite Hf in Hc. exact Hc. }
    destruct (Z.le_gt_cases world_size 0) as [Hle|Hgt].
    - assert (Hnil : pre = []).
      { destruct pre; [reflexivity | cbn [length] in Hpre; lia]. }
      subst pre. cbn [app]. apply Hpast. lia.
    - unfold initial. rewrite reserve_phase by lia. cbn [app].
      destruct (Z.le_gt_cases world_size (len data)) as [Hlong|Hshort].
      + apply Hpast. lia.
      + assert (Hnil : rest = []).
        { destruct rest; [reflexivity | cbn [length] in Hrest; lia]. }
        subst rest. cbn [fetch_loop]. exists [], [], 0%Q. now split. }
  rewrite <- Hdata in Hloop.
  destruct Hloop as (ys & m2 & s2 & Hrun & Hcat).
  unfold fetch_batch. fold fn. rewrite Hrun.
  cbn [final_batch minibatch reserved_minibatch].
  rewrite concat_app. cbn [concat]. rewrite app_nil_r, app_assoc.
  now rewrite Hcat.
Qed.

(** The batches of [fetch_batch] are the input cut into consecutive pieces:
    without reserve their concatenation is the input itself; with reserve it
    is the input with its first [world_size] examples moved to the end.  No
    example is lost or repeated. *)
Theorem fetch_batch_partition {A : Type} (data : list A) (batch_size : Z)
    (batch_size_fn : option (cost_fn A)) (world_size : Z) :
  concat (fetch_batch data batch_size batch_size_fn world_size false) = data /\
  concat (fetch_batch data batch_size batch_size_fn world_size true)
  = skipn (Z.to_nat world_size) data ++ firstn (Z.to_nat world_size) data.
Proof.
  destruct (fetch_batch_concat data batch_size batch_size_fn world_size)
    as [Hplain Hreserve].
  split.
  - exact Hplain.
  - exact Hreserve.
Qed.

Section CountChunks.

Context {A : Type}.
Variables (batch_size : Z) (fn : cost_fn A) (world_size : Z).
Hypothesis HW : 0 <= world_size.
Hypothesis Hcount : forall ex count sofar, fn ex count sofar = inject_Z count.

(** The size of a batch under the count policy. *)
Let chunk : Z :=
  if batch_size * world_size >? world_size then batch_size * world_size
  else world_size + 1.

(** Between two turns the running cost is the number of examples of the
    batch being built, which is still short of a chunk (and at most a chunk
    when the batch restarts from a deferred example). *)
Let counting (st : state A) : Prop :=
  size_so_far st = inject_Z (len (minibatch st)) /\
  len (minibatch st)
  <= (if batch_size * world_size >? world_size
      then batch_size * world_size - 1 else world_size + 1).

Lemma count_step (reserve : bool) (it : Z) (ex : A) (st : state A) :
  counting st ->
  counting (snd (fetch_step batch_size fn world_size reserve it ex st)) /\
  forall b,
    fst (fetch_step batch_size fn world_size reserve it ex st) = Some b ->
    len b = chunk.
Proof.
  intros [Hsize Hlen]. unfold fetch_step, counting, chunk in *.
  destruct (reserve && (it <? world_size)).
  { cbn [fst snd minibatch size_so_far]. split; [now split | discriminate]. }
  rewrite Hcount, (Hcount ex 1), Qeq_bool_inject, Qgtb_inject.
  assert (Hm : len (minibatch st ++ [ex]) = len (minibatch st) + 1)
    by (rewrite length_app; cbn [length]; lia).
  rewrite slice_to_snoc, slice_from_snoc. rewrite Hm.
  destruct (batch_size * world_size >? world_size) eqn:ET.
  - destruct (len (minibatch st) + 1 =? batch_size * world_size) eqn:E1;
      cbn [andb].
    + replace (len (minibatch st) + 1 >? world_size) with true by lia.
      cbn [fst snd minibatch size_so_far length]. split; [split|].
      * reflexivity.
      * lia.
      * intros b [= <-]. lia.
    + replace (len (minibatch st) + 1 >? batch_size * world_size)
        with false by lia.
      cbn [andb fst snd minibatch size_so_far]. split; [split|].
      * now rewrite Hm.
      * lia.
      * discriminate.
  - replace ((len (minibatch st) + 1 =? batch_size * world_size)
             && (len (minibatch st) + 1 >? world_size))
      with false by lia.
    destruct (len (minibatch st) + 1 >? world_size + 1) eqn:E2.
    + replace (len (minibatch st) + 1 >? batch_size * world_size)
        with true by lia.
      cbn [andb fst snd minibatch size_so_far length]. split; [split|].
      * reflexivity.
      * lia.
      * intros b [= <-]. lia.
    + rewrite andb_false_r.
      cbn [fst snd minibatch size_so_far]. split; [split|].
      * now rewrite Hm.
      * lia.
      * discriminate.
Qed.

Lemma count_loop (reserve : bool) (data : list A) :
  forall it st,
    counting st ->
    Forall (fun b => len b = chunk)
      (fst (fetch_loop batch_size fn world_size reserve it data st)) /\
    counting (snd (fetch_loop batch_size fn world_size reserve it data st)).
Proof.
  induction data as [|ex data IH]; intros it st Hst.
  - cbn. split; [constructor | assumption].
  - cbn [fetch_loop].
    destruct (count_step reserve it ex st Hst) as [Hst' Hy].
    destruct (fetch_step batch_size fn world_size reserve it ex st)
      as [y st'].
    cbn [fst snd] in Hst', Hy.
    destruct (IH (it + 1) st' Hst') as [Hys Hst''].
    destruct (fetch_loop batch_size fn world_size reserve (it + 1) data st')
      as [ys st''].
    cbn [fst snd] in *. split; [|assumption].
    destruct y as [b|]; [constructor; auto | assumption].
Qed.

Lemma count_chunks (reserve : bool) (data : list A) :
  Forall (fun b => len b = chunk)
    (non_final_batches data batch_size (Some fn) world_size reserve) /\
  len (last (fetch_batch data batch_size (Some fn) world_size false) [])
  <= chunk.
Proof.
  assert (Hinit : counting initial).
  { unfold counting. cbn. split; [reflexivity|].
    destruct (batch_size * world_size >? world_size) eqn:E; lia. }
  split.
  - rewrite non_final_batches_loop. cbn [or_default].
    now apply count_loop.
  - rewrite fetch_batch_loop, last_last. cbn [or_default final_batch].
    destruct (count_loop false data 0 initial Hinit) as [_ [_ Hlen]].
    subst chunk. destruct (batch_size * world_size >? world_size); lia.
Qed.

End CountChunks.

(** Under the count policy (the default of [fetch_batch]) and for
    [world_size >= 0], every batch before the final one has exactly
    [batch_size * world_size] examples when that is more than [world_size],
    and exactly [world_size + 1] examples otherwise; without reserve the
    final batch has at most that many. *)
Theorem count_policy_chunks {A : Type} (data : list A)
    (batch_size world_size : Z) (reserve : bool) :
  0 <= world_size ->
  let chunk := if batch_size * world_size >? world_size
               then batch_size * world_size else world_size + 1 in
  Forall (fun b => len b = chunk)
    (non_final_batches data batch_size None world_size reserve) /\
  len (last (fetch_batch data batch_size None world_size false) []) <= chunk.
Proof.
  intros HW.
  exact (count_chunks batch_size default_batch_size_fn world_size HW
           (fun _ _ _ => eq_refl) reserve data).
Qed.

Lemma count_policy_chunks_witness :
  Forall (fun b => len b = 6)
    (non_final_batches [1; 2; 3; 4; 5; 6; 7; 8; 9; 10; 11; 12; 13]
                       3 None 2 false) /\
  len (last (fetch_batch [1; 2; 3; 4; 5; 6; 7; 8; 9; 10; 11; 12; 13]
                         3 None 2 false) []) <= 6.
Proof.
  apply (count_policy_chunks [1; 2; 3; 4; 5; 6; 7; 8; 9; 10; 11; 12; 13]
           3 2 false).
  lia.
Defined.

(** The cost function [DataLoader] installs for [batch_size = 1] is the count
    policy, and with it no batch before the final one is a single sentence:
    each has exactly [world_size + 1] examples. *)
Theorem batch_size_one_batches {token : Type}
    (data : list (Cost.Example token)) (world_size : Z) (reserve : bool) :
  0 <= world_size ->
  Forall (fun b => len b = world_size + 1)
    (non_final_batches data 1 (Some (Cost.batch_size_fn token 1))
                       world_size reserve).
Proof.
  intros HW.
  pose proof (count_chunks 1 (Cost.batch_size_fn token 1) world_size HW
                (fun _ _ _ => eq_refl) reserve data) as [H _].
  replace (1 * world_size >? world_size) with false in H by lia.
  exact H.
Qed.

Lemma batch_size_one_batches_witness :
  Forall (fun b => len b = 1 + 1)
    (non_final_batches
       [Cost.mk_example [1] [2]; Cost.mk_example [3] [4];
        Cost.mk_example [5] [6]; Cost.mk_example [7] [8];
        Cost.mk_example [9] [0]]
       1 (Some (Cost.batch_size_fn Z 1)) 1 false).
Proof.
  apply (batch_size_one_batches
           [Cost.mk_example [1] [2]; Cost.mk_example [3] [4];
            Cost.mk_example [5] [6]; Cost.mk_example [7] [8];
            Cost.mk_example [9] [0]] 1 false).
  lia.
Defined.

End AssemblerMore.

(** ** The two sorts *)

Module SortFacts.

Import Iterator Pool.

Section Sorts.

Context {A : Type}.
Variable key : A -> Z.

Lemma insert_desc_perm (x : A) (l : list A) :
  Permutation (insert_desc key x l) (x :: l).
Proof.
  induction l as [|y l IH]; [reflexivity|].
  cbn [insert_desc]. destruct (key y <=? key x); [reflexivity|].
  rewrite IH. apply perm_swap.
Qed.

Lemma sort_reverse_perm (l : list A) : Permutation (sort_reverse key l) l.
Proof.
  induction l as [|x l IH]; [reflexivity|].
  cbn [sort_reverse fold_right]. fold (sort_reverse key l).
  rewrite insert_desc_perm. now constructor.
Qed.

Lemma insert_desc_sorted (x : A) (l : list A) :
  StronglySorted (key_ge key) l ->
  StronglySorted (key_ge key) (insert_desc key x l).
Proof.
  induction 1 as [|y l Hs IH Hy].
  - repeat constructor.
  - cbn [insert_desc]. destruct (key y <=? key x) eqn:E.
    + apply Z.leb_le in E. constructor; [now constructor|].
      constructor; [exact E|].
      rewrite Forall_forall in *. intros z Hz.
      specialize (Hy z Hz). unfold key_ge in *. lia.
    + apply Z.leb_gt in E. constructor; [exact IH|].
      rewrite (insert_desc_perm x l). constructor; [|exact Hy].
      unfold key_ge. lia.
Qed.

Lemma sort_reverse_sorted (l : list A) :
  StronglySorted (key_ge key) (sort_reverse key l).
Proof.
  induction l as [|x l IH]; [constructor|].
  cbn [sort_reverse fold_right]. now apply insert_desc_sorted.
Qed.

Lemma insert_desc_stable (k : Z) (x : A) (l : list A) :
  filter (fun z => key z =? k) (insert_desc key x l)
  = filter (fun z => key z =? k) (x :: l).
Proof.
  induction l as [|y l IH]; [reflexivity|].
  cbn [insert_desc]. destruct (key y <=? key x) eqn:E; [reflexivity|].
  apply Z.leb_gt in E. cbn [filter] in *. rewrite IH.
  destruct (key x =? k) eqn:Ex; destruct (key y =? k) eqn:Ey;
    try reflexivity.
  apply Z.eqb_eq in Ex, Ey. lia.
Qed.

Lemma sort_reverse_stable (k : Z) (l : list A) :
  filter (fun z => key z =? k) (sort_reverse key l)
  = filter (fun z => key z =? k) l.
Proof.
  induction l as [|x l IH]; [reflexivity|].
  cbn [sort_reverse fold_right]. fold (sort_reverse key l).
  rewrite insert_desc_stable. cbn [filter]. now rewrite IH.
Qed.

Lemma insert_asc_perm (x : A) (l : list A) :
  Permutation (insert_asc key x l) (x :: l).
Proof.
  induction l as [|y l IH]; [reflexivity|].
  cbn [insert_asc]. destruct (key x <=? key y); [reflexivity|].
  rewrite IH. apply perm_swap.
Qed.

Lemma sorted_perm (l : list A) : Permutation (sorted l key) l.
Proof.
  induction l as [|x l IH]; [reflexivity|].
  unfold sorted in *. cbn [fold_right].
  rewrite insert_asc_perm. now constructor.
Qed.

Lemma insert_asc_sorted (x : A) (l : list A) :
  StronglySorted (key_le key) l ->
  StronglySorted (key_le key) (insert_asc key x l).
Proof.
  induction 1 as [|y l Hs IH Hy].
  - repeat constructor.
  - cbn [insert_asc]. destruct (key x <=? key y) eqn:E.
    + apply Z.leb_le in E. constructor; [now constructor|].
      constructor; [exact E|].
      rewrite Forall_forall in *. intros z Hz.
      specialize (Hy z Hz). unfold key_le in *. lia.
    + apply Z.leb_gt in E. constructor; [exact IH|].
      rewrite (insert_asc_perm x l). constructor; [|exact Hy].
      unfold key_le. lia.
Qed.

Lemma insert_asc_stable (k : Z) (x : A) (l : list A) :
  filter (fun z => key z =? k) (insert_asc key x l)
  = filter (fun z => key z =? k) (x :: l).
Proof.
  induction l as [|y l IH]; [reflexivity|].
  cbn [insert_asc]. destruct (key x <=? key y) eqn:E; [reflexivity|].
  apply Z.leb_gt in E. cbn [filter] in *. rewrite IH.
  destruct (key x =? k) eqn:Ex; destruct (key y =? k) eqn:Ey;
    try reflexivity.
  apply Z.eqb_eq in Ex, Ey. lia.
Qed.

End Sorts.

Lemma strongly_sorted_app {A : Type} (R : A -> A -> Prop) (l1 l2 : list A) :
  StronglySorted R (l1 ++ l2) -> StronglySorted R l1 /\ StronglySorted R l2.
Proof.
  induction l1 as [|x l1 IH]; cbn [app]; intros H.
  - split; [constructor | assumption].
  - inversion H as [|? ? Hs Hx]; subst.
    destruct (IH Hs) as [H1 H2]. split; [|assumption].
    constructor; [assumption|].
    rewrite Forall_app in Hx. tauto.
Qed.

Lemma strongly_sorted_slice {A : Type} (R : A -> A -> Prop) (l : list A)
    (start stop : Z) :
  StronglySorted R l -> StronglySorted R (PyList.slice l start stop).
Proof.
  intros H. unfold PyList.slice.
  generalize (Z.to_nat (PyList.clamp (len l) stop
                        - PyList.clamp (len l) start)).
  generalize (Z.to_nat (PyList.clamp (len l) start)).
  intros lo n.
  rewrite <- (firstn_skipn lo l) in H.
  apply strongly_sorted_app in H as [_ H].
  rewrite <- (firstn_skipn n (skipn lo l)) in H.
  now apply strongly_sorted_app in H as [H _].
Qed.

(** [minibatch.sort(key=key, reverse=True)] as modelled is the stable
    decreasing sort: the result is a rearrangement of the batch, its keys
    never increase, and the examples of any one key keep their order. *)
Theorem sort_reverse_stable_sort {A : Type} (key : A -> Z) (l : list A) :
  Permutation (sort_reverse key l) l /\
  StronglySorted (key_ge key) (sort_reverse key l) /\
  forall k, filter (fun z => key z =? k) (sort_reverse key l)
            = filter (fun z => key z =? k) l.
Proof.
  split; [apply sort_reverse_perm|].
  split; [apply sort_reverse_sorted|].
  intros k. apply sort_reverse_stable.
Qed.

(** [sorted(p, key=key)] as modelled is the stable increasing sort. *)
Theorem sorted_stable_sort {A : Type} (key : A -> Z) (p : list A) :
  Permutation (sorted p key) p /\
  StronglySorted (key_le key) (sorted p key) /\
  forall k, filter (fun z => key z =? k) (sorted p key)
            = filter (fun z => key z =? k) p.
Proof.
  split; [apply sorted_perm|]. split.
  - induction p as [|x p IH]; [constructor|].
    unfold sorted in *. cbn [fold_right]. now apply insert_asc_sorted.
  - intros k. induction p as [|x p IH]; [reflexivity|].
    unfold sorted in *. cbn [fold_right].
    rewrite insert_asc_stable. cbn [filter]. now rewrite IH.
Qed.

(** With [sort_within_batch] every batch a rank receives is in decreasing
    key order (keys never increase), whatever the rank and [world_size]: the
    batch is sorted before it is sliced. *)
Theorem per_rank_sorted {A : Type} (self : iterator A)
    (minibatch shard : list A) :
  sort_within_batch self = true ->
  per_rank self minibatch = Ok shard ->
  StronglySorted (key_ge (sort_key self)) shard.
Proof.
  intros Hsort. unfold per_rank, Shard.DistributedBatch. rewrite Hsort.
  destruct (Shard.shard_bounds _ _ _) as [[start stop]|e];
    cbn [bind fst snd]; [|discriminate].
  intros [= <-]. apply strongly_sorted_slice, sort_reverse_sorted.
Qed.

Lemma per_rank_sorted_witness :
  StronglySorted (key_ge (fun x : Z => x)) [5; 4].
Proof.
  apply (per_rank_sorted (mk_iterator (fun x : Z => x) true 1 2 0 0)
           [4; 6; 5; 7] [5; 4]); reflexivity.
Defined.

End SortFacts.

(** ** The pool and the whole epoch *)

Module PoolFacts.

Import PyList PyListFacts Shard ShardFacts Assembler AssemblerFacts.
Import AssemblerClaims AssemblerMore Iterator IteratorFacts Pool SortFacts.

Lemma Permutation_concat {A : Type} (l l' : list (list A)) :
  Permutation l l' -> Permutation (concat l) (concat l').
Proof.
  induction 1 as [|x l l' _ IH|x y l|l l' l'' _ IH1 _ IH2]; cbn [concat].
  - reflexivity.
  - now apply Permutation_app_head.
  - rewrite !app_assoc. apply Permutation_app_tail, Permutation_app_comm.
  - now transitivity (concat l').
Qed.

Lemma Permutation_concat_map {A : Type} (g : list A -> list A)
    (ps : list (list A)) :
  (forall p, Permutation (g p) p) ->
  Permutation (concat (map g ps)) (concat ps).
Proof.
  intros Hg. induction ps as [|p ps IH]; [reflexivity|].
  cbn [map concat]. now apply Permutation_app.
Qed.

Lemma concat_flat_map {A B : Type} (f : A -> list (list B)) (ps : list A) :
  concat (flat_map f ps) = concat (map (fun p => concat (f p)) ps).
Proof.
  induction ps as [|p ps IH]; [reflexivity|].
  cbn [flat_map map concat]. now rewrite concat_app, IH.
Qed.

Lemma fetch_batch_reserve_perm {A : Type} (data : list A) (batch_size : Z)
    (batch_size_fn : option (cost_fn A)) (world_size : Z) :
  Permutation
    (concat (fetch_batch data batch_size batch_size_fn world_size true))
    data.
Proof.
  destruct (fetch_batch_concat data batch_size batch_size_fn world_size)
    as [_ ->].
  rewrite Permutation_app_comm. now rewrite firstn_skipn.
Qed.

Lemma fetch_pool_perm {A : Type} (data : list A) (batch_size : Z)
    (key : A -> Z) (batch_size_fn : option (cost_fn A))
    (random_shuffler : list (list A) -> list (list A)) (world_size : Z) :
  (forall l, Permutation (random_shuffler l) l) ->
  Permutation
    (concat (fetch_pool data batch_size key batch_size_fn random_shuffler
                        world_size))
    data.
Proof.
  intros Hshuffle. unfold fetch_pool. rewrite concat_flat_map.
  destruct (fetch_batch_concat data (batch_size * 100) batch_size_fn 1)
    as [Hdata _].
  rewrite <- Hdata at 2.
  apply Permutation_concat_map. intros p.
  rewrite (Permutation_concat _ _ (Hshuffle _)).
  rewrite fetch_batch_reserve_perm. apply sorted_perm.
Qed.

(** With a shuffler that only rearranges the batches it is given, the
    batches of [fetch_pool] together hold every example of the input exactly
    once. *)
Theorem fetch_pool_permutation {A : Type} (data : list A) (batch_size : Z)
    (key : A -> Z) (batch_size_fn : option (cost_fn A))
    (random_shuffler : list (list A) -> list (list A)) (world_size : Z) :
  (forall l, Permutation (random_shuffler l) l) ->
  Permutation
    (concat (fetch_pool data batch_size key batch_size_fn random_shuffler
                        world_size))
    data /\
  forall x, In x data <->
            exists b, In b (fetch_pool data batch_size key batch_size_fn
                                       random_shuffler world_size) /\
                      In x b.
Proof.
  intros Hshuffle.
  pose proof (fetch_pool_perm data batch_size key batch_size_fn
                random_shuffler world_size Hshuffle) as Hperm.
  split; [exact Hperm|].
  intros x. rewrite <- (Permutation_in' (eq_refl x) Hperm).
  rewrite in_concat. split; intros (b & Hb & Hx); exists b; now split.
Qed.

Lemma fetch_pool_permutation_witness :
  Permutation
    (concat (fetch_pool [5; 3; 8; 1; 9; 2; 7] 2 (fun x => x) None
                        (fun l => rev l) 2))
    [5; 3; 8; 1; 9; 2; 7].
Proof.
  apply (fetch_pool_permutation [5; 3; 8; 1; 9; 2; 7] 2 (fun x => x) None
           (fun l => rev l) 2).
  intros l. symmetry. apply Permutation_rev.
Defined.

(** The reserve does not keep [fetch_pool] from yielding an empty batch:
    under the count policy, an input of exactly [100 * batch_size] examples
    fills one super-batch, the super-batch yielded after it is empty, and
    its only batch, the last one of the pool, is empty. *)
Theorem fetch_pool_empty_batch {A : Type} (data : list A) (batch_size : Z)
    (key : A -> Z) (random_shuffler : list (list A) -> list (list A))
    (world_size : Z) :
  (forall l, Permutation (random_shuffler l) l) ->
  1 <= batch_size ->
  len data = batch_size * 100 ->
  exists earlier,
    fetch_pool data batch_size key None random_shuffler world_size
    = earlier ++ [[]].
Proof.
  intros Hshuffle Hbs Hlen. unfold fetch_pool.
  assert (Hsuper :
    fetch_batch data (batch_size * 100) None 1 false = [data; []]).
  { unfold fetch_batch, initial. cbn [or_default].
    change 0%Q with (inject_Z (len (@nil A))).
    rewrite count_fill; [reflexivity | lia | | cbn [length]; lia].
    intros ->. cbn [length] in Hlen. lia. }
  rewrite Hsuper. cbn [flat_map]. rewrite app_nil_r.
  eexists. f_equal.
  change (fetch_batch (sorted [] key) batch_size None world_size true)
    with [@nil A].
  apply Permutation_length_1_inv. symmetry. apply Hshuffle.
Qed.

Lemma fetch_pool_empty_batch_witness :
  exists earlier,
    fetch_pool (repeat 7 100) 1 (fun x => x) None (fun l => rev l) 2
    = earlier ++ [[]].
Proof.
  apply (fetch_pool_empty_batch (repeat 7 100) 1 (fun x => x)
           (fun l => rev l) 2).
  - intros l. symmetry. apply Permutation_rev.
  - lia.
  - rewrite repeat_length. reflexivity.
Defined.

End PoolFacts.

(** ** A whole epoch *)

Module EpochFacts.

Import PyList PyListFacts Shard ShardFacts Assembler Iterator IteratorFacts.
Import Pool SortFacts PoolFacts.

(** The shards of all the ranks, for one batch. *)
Lemma all_shards {A : Type} (data : list A) (W : Z) :
  1 <= W ->
  exists shards,
    map (DistributedBatch data W) (range W) = map Ok shards /\
    concat shards = data.
Proof.
  intros HW.
  set (B := len data).
  set (c := fun i : nat => Z.to_nat (cut B W (Z.of_nat i))).
  exists (map (fun i => firstn (c (S i) - c i) (skipn (c i) data))
              (seq 0 (Z.to_nat W))).
  split.
  - unfold range. rewrite !map_map. apply map_ext_in.
    intros i Hi. apply in_seq in Hi.
    rewrite DistributedBatch_inside by lia. fold B. f_equal.
    subst c. cbv beta.
    pose proof (cut_nonneg B W ltac:(lia) HW (Z.of_nat i) ltac:(lia)).
    pose proof (cut_mono B W ltac:(lia) HW (Z.of_nat i)).
    replace (Z.of_nat (S i)) with (Z.of_nat i + 1) by lia.
    f_equal. lia.
  - rewrite pieces_concat.
    + subst c. cbv beta. rewrite Z2Nat.id by lia. rewrite cut_W by lia.
      apply firstn_all2. lia.
    + subst c. cbv beta. change (Z.of_nat 0) with 0. now rewrite cut_0 by lia.
    + intros i. subst c. cbv beta.
      pose proof (cut_mono B W ltac:(lia) HW (Z.of_nat i)).
      replace (Z.of_nat (S i)) with (Z.of_nat i + 1) by lia. lia.
Qed.

Lemma per_rank_table {A : Type} (self : iterator A)
    (batches : list (list A)) :
  1 <= world_size self ->
  exists table,
    Forall2
      (fun b shards =>
         map (fun r => per_rank (on_rank self r) b)
             (range (world_size self))
         = map Ok shards)
      batches table /\
    Permutation (concat (map (@concat A) table)) (concat batches).
Proof.
  intros HW. induction batches as [|b batches (table & Htable & Hperm)].
  - exists []. split; [constructor | reflexivity].
  - set (b' := if sort_within_batch self
               then sort_reverse (sort_key self) b else b).
    destruct (all_shards b' (world_size self) HW) as (shards & Hsh & Hcat).
    exists (shards :: table). split.
    + constructor; [exact Hsh | exact Htable].
    + cbn [map concat]. apply Permutation_app; [|exact Hperm].
      rewrite Hcat. subst b'.
      destruct (sort_within_batch self);
        [apply sort_reverse_perm | reflexivity].
Qed.

Section Loop.

Import Batch.

Context {A X T : Type}.

Implicit Types (fields : list (option (field A X T))).

(** The column of one rank in the table of the shards. *)
Lemma table_column (self : iterator A) (batches : list (list A))
    (table : list (list (list A))) (r : Z) :
  Forall2
    (fun b shards =>
       map (fun r => per_rank (on_rank self r) b) (range (world_size self))
       = map Ok shards)
    batches table ->
  0 <= r < world_size self ->
  Forall2 (fun b shard => per_rank (on_rank self r) b = Ok shard)
          batches
          (map (fun shards => nth (Z.to_nat r) shards []) table).
Proof.
  intros Htable Hr.
  induction Htable as [|b shards batches table Hrow _ IH];
    [constructor|].
  cbn [map]. constructor; [|exact IH].
  set (f := fun r => per_rank (on_rank self r) b) in *.
  assert (Hlen : length shards = Z.to_nat (world_size self)).
  { apply (f_equal (@length _)) in Hrow. unfold range in Hrow.
    rewrite !length_map, length_seq in Hrow. lia. }
  change (f r = Ok (nth (Z.to_nat r) shards [])).
  rewrite <- (map_nth Ok shards []), <- Hrow. unfold range.
  rewrite map_map.
  rewrite (nth_indep _ (Ok []) (f (Z.of_nat 0)))
    by (rewrite length_map, length_seq; lia).
  rewrite (map_nth (fun i => f (Z.of_nat i))).
  rewrite seq_nth by lia. f_equal. lia.
Qed.

(** A run that skips nothing yields the batch built from the slice of
    every batch, up to the first one the constructor fails on. *)
Lemma iter_loop_slices fields (self : iterator A)
    (batches mine : list (list A)) :
  Forall2 (fun b shard => per_rank self b = Ok shard) batches mine ->
  forall (self' : iterator A) (count idx : Z),
    same_config self self' ->
    _iterations_this_epoch self' <= idx ->
    let r := iter_loop fields self' count idx batches in
    exists n : nat,
      (n <= length mine)%nat /\
      map Ok (yielded r) = map (of_slice fields) (firstn n mine) /\
      match raised r with
      | None => n = length mine
      | Some e =>
          (n < length mine)%nat /\
          of_slice fields (nth n mine []) = Raise e
      end.
Proof.
  induction 1 as [|b shard batches mine Hb _ IH];
    intros self' count idx Hcfg Hidx; cbv zeta.
  - exists 0%nat. cbn. repeat split; lia.
  - cbn [iter_loop].
    replace (_iterations_this_epoch self' >? idx) with false
      by (symmetry; rewrite Z.gtb_ltb; apply Z.ltb_ge; lia).
    rewrite (per_rank_same_config self self' b Hcfg) in Hb.
    unfold __init__.
    change (Shard.DistributedBatch _ _ _) with (per_rank self' b).
    rewrite Hb. cbn [bind].
    destruct (of_slice fields shard) as [out|e] eqn:Eout.
    + destruct (IH (advance self') (count + 1) (idx + 1)
                  (same_config_advance_r _ _ Hcfg)
                  ltac:(cbn [advance _iterations_this_epoch]; lia))
        as (n & Hn & Hys & Hend).
      exists (S n). cbn [yielded raised length firstn map nth].
      split; [lia|]. split; [now rewrite Hys, Eout|].
      destruct (raised _); [|lia].
      destruct Hend as [Hlt He]. split; [lia | exact He].
    + exists 0%nat. cbn [yielded raised length firstn map nth].
      split; [lia|]. split; [reflexivity|]. split; [lia | exact Eout].
Qed.

(** The loop over the slices is the loop with the constructor in full for
    a dataset without fields: the same slices, counters and exception. *)
Lemma iter_loop_no_fields (batches : list (list A)) :
  forall (self : iterator A) (count idx : Z),
    let r := iter_loop (@nil (option (field A X T))) self count idx batches in
    yielded r
    = map (fun shard => mk_batch (len shard) [])
          (fst (epoch_loop self count idx batches)) /\
    match snd (epoch_loop self count idx batches) with
    | Ok (self', count') =>
        raised r = None /\ self_after r = self' /\ count_after r = count'
    | Raise e => raised r = Some e
    end.
Proof.
  induction batches as [|b batches IH]; intros self count idx; cbv zeta.
  - cbn. repeat split.
  - cbn [iter_loop epoch_loop].
    destruct (_iterations_this_epoch self >? idx); [apply IH|].
    unfold __init__.
    destruct (Shard.DistributedBatch _ _ _) as [shard|e]; cbn [bind].
    + specialize (IH (advance self) (count + 1) (idx + 1)).
      cbv zeta in IH. destruct IH as [Hys Hend].
      destruct (epoch_loop (advance self) (count + 1) (idx + 1) batches)
        as [ys res].
      cbn [of_slice process_fields bind yielded raised self_after
           count_after fst snd map] in *.
      split; [now rewrite Hys | exact Hend].
    + cbn. now split.
Qed.

(** The counters along a run of the loop. *)
Lemma iter_loop_counters fields (batches : list (list A)) :
  forall (self : iterator A) (count idx : Z),
    let r := iter_loop fields self count idx batches in
    _iterations_this_epoch (self_after r)
    = _iterations_this_epoch self + len (yielded r) + failed r /\
    iterations (self_after r)
    = iterations self + len (yielded r) + failed r /\
    (raised r = None ->
     count_after r = count + len batches /\
     len (yielded r)
     = len batches
       - Z.min (len batches)
               (Z.max 0 (_iterations_this_epoch self - idx))) /\
    (raised r <> None ->
     count < count_after r <= count + len batches /\
     _iterations_this_epoch (self_after r)
     = idx + (count_after r - count)
       + Z.min 0 (_iterations_this_epoch self - idx)).
Proof.
  induction batches as [|b batches IH]; intros self count idx; cbv zeta.
  - cbn. repeat split; try lia; congruence.
  - cbn [iter_loop].
    destruct (_iterations_this_epoch self >? idx) eqn:E.
    + apply Z.gtb_lt in E.
      destruct (IH self (count + 1) (idx + 1)) as (Hc & Hi & Hok & Hbad).
      cbn [length]. refine (conj Hc (conj Hi (conj _ _))).
      * intros Hr. destruct (Hok Hr). lia.
      * intros Hr. destruct (Hbad Hr). lia.
    + rewrite Z.gtb_ltb in E. apply Z.ltb_ge in E.
      destruct (__init__ fields _ _ _) as [out|e].
      * destruct (IH (advance self) (count + 1) (idx + 1))
          as (Hc & Hi & Hok & Hbad).
        unfold failed in *.
        cbn [yielded self_after count_after raised length advance
             _iterations_this_epoch iterations] in *.
        refine (conj _ (conj _ (conj _ _))); try lia.
        -- intros Hr. destruct (Hok Hr). lia.
        -- intros Hr. destruct (Hbad Hr). lia.
      * unfold failed.
        cbn [yielded self_after count_after raised length advance
             _iterations_this_epoch iterations].
        refine (conj _ (conj _ (conj _ _))); try lia.
        intros [=].
Qed.

(** One epoch hands every example to one rank, as far as the constructor
    lets it.  For [world_size >= 1] and a shuffler that only rearranges,
    take the batches [create_batches] builds from the examples.  The
    slices the constructors of the ranks take from a batch form a row of a
    table, and all the slices of the table together are a rearrangement of
    the examples.  The epoch of rank [r] yields, in order, the batch built
    from its slice of every batch, up to the first slice on which the
    constructor raises; it yields them all when there is none, and ends
    with that exception otherwise. *)
Theorem epoch_delivers_every_example fields (self : iterator A)
    (sort : bool) (data : list A) (batch_size : Z)
    (batch_size_fn : option (cost_fn A))
    (random_shuffler : list (list A) -> list (list A)) :
  1 <= world_size self ->
  (forall l, Permutation (random_shuffler l) l) ->
  let batches :=
    create_batches sort data batch_size (sort_key self) batch_size_fn
                   random_shuffler (world_size self) in
  exists table,
    Forall2
      (fun b shards =>
         map (fun r => per_rank (on_rank self r) b)
             (range (world_size self))
         = map Ok shards)
      batches table /\
    Permutation (concat (map (@concat A) table)) data /\
    forall r,
      0 <= r < world_size self ->
      let run := __iter__ fields (load (on_rank self r) 0) batches in
      let mine := map (fun shards => nth (Z.to_nat r) shards []) table in
      exists n : nat,
        (n <= length mine)%nat /\
        map Ok (yielded run) = map (of_slice fields) (firstn n mine) /\
        match raised run with
        | None => n = length mine
        | Some e =>
            (n < length mine)%nat /\
            of_slice fields (nth n mine []) = Raise e
        end.
Proof.
  intros HW Hshuffle batches.
  destruct (per_rank_table self batches HW) as (table & Htable & Hperm).
  exists table. split; [exact Htable|]. split.
  - rewrite Hperm. subst batches. unfold create_batches.
    destruct sort.
    + apply fetch_batch_reserve_perm.
    + now apply fetch_pool_perm.
  - intros r Hr. cbv zeta. unfold __iter__.
    apply (iter_loop_slices fields (on_rank self r)).
    + now apply table_column.
    + repeat split.
    + cbn [load _iterations_this_epoch]. lia.
Qed.

(** The counters after a run of the loop, for a per-epoch counter loaded
    as [k >= 0].  Both counters have advanced by the number of batches
    yielded, and by one more if the constructor raised: they are advanced
    before the batch is built.  A run without exception has taken [count]
    past every batch and yielded all but the first [k] of them, and for
    [k <= n] leaves the per-epoch counter at the number [n] of batches.  A
    run that ends with an exception leaves the per-epoch counter at the
    number of batches the loop has taken, the failed one included. *)
Theorem epoch_counters fields (self : iterator A) (count k : Z)
    (batches : list (list A)) :
  0 <= k ->
  let r := iter_loop fields (load self k) count 0 batches in
  _iterations_this_epoch (self_after r) = k + len (yielded r) + failed r /\
  iterations (self_after r) = iterations self + len (yielded r) + failed r /\
  (raised r = None ->
   count_after r = count + len batches /\
   len (yielded r) = len batches - Z.min (len batches) k /\
   (k <= len batches ->
    _iterations_this_epoch (self_after r) = len batches)) /\
  (raised r <> None ->
   count < count_after r <= count + len batches /\
   _iterations_this_epoch (self_after r) = count_after r - count).
Proof.
  intros Hk. cbv zeta.
  destruct (iter_loop_counters fields batches (load self k) count 0)
    as (Hc & Hi & Hok & Hbad).
  cbn [load _iterations_this_epoch iterations] in Hc, Hi, Hok, Hbad.
  refine (conj Hc (conj Hi (conj _ _))).
  - intros Hr. destruct (Hok Hr) as [Hcount Hlen].
    unfold failed in Hc. rewrite Hr in Hc. lia.
  - intros Hr. destruct (Hbad Hr). lia.
Qed.

End Loop.

Lemma epoch_delivers_every_example_witness :
  let self := mk_iterator (fun x : Z => x) true 0 2 0 0 in
  exists table,
    Forall2
      (fun b shards =>
         map (fun r => per_rank (on_rank self r) b) (range 2) = map Ok shards)
      (create_batches true [5; 3; 8; 1; 9; 2; 7] 2 (fun x => x) None
                      (fun l => rev l) 2)
      table /\
    Permutation (concat (map (@concat Z) table)) [5; 3; 8; 1; 9; 2; 7].
Proof.
  cbv zeta.
  destruct (epoch_delivers_every_example [Some Batch.sample_field]
              (mk_iterator (fun x : Z => x) true 0 2 0 0) true
              [5; 3; 8; 1; 9; 2; 7] 2 None (fun l => rev l))
    as (table & Htable & Hperm & _).
  - cbn. lia.
  - intros l. symmetry. apply Permutation_rev.
  - exists table. split; [exact Htable | exact Hperm].
Defined.

Lemma epoch_counters_witness :
  let r :=
    Batch.iter_loop [Some Batch.sample_field]
      (load (mk_iterator (fun x : Z => x) false 1 2 10 0) 0) 0 0
      [[1; 2; 3]; [4]; [5; 6]] in
  Batch.raised r = Some ValueError /\
  len (Batch.yielded r) = 1 /\
  _iterations_this_epoch (Batch.self_after r) = 2 /\
  iterations (Batch.self_after r) = 12.
Proof.
  cbv zeta.
  destruct (epoch_counters [Some Batch.sample_field]
              (mk_iterator (fun x : Z => x) false 1 2 10 0) 0 0
              [[1; 2; 3]; [4]; [5; 6]] ltac:(lia))
    as (Hc & Hi & _ & _).
  refine (conj eq_refl (conj eq_refl (conj _ _))).
  - rewrite Hc. reflexivity.
  - rewrite Hi. reflexivity.
Defined.

End EpochFacts.

(** ** The files, the full reader and the reopening loop *)

Module FilesFacts.

Import Reader ReaderFacts Files.

Lemma nth_combine {A B : Type} (l : list A) (l' : list B) (a : A) (b : B) :
  forall i,
    (i < length l)%nat -> (i < length l')%nat ->
    nth i (combine l l') (a, b) = (nth i l a, nth i l' b).
Proof.
  revert l'. induction l as [|x l IH]; intros [|y l'] i Hl Hl';
    cbn [length] in *; try lia.
  destruct i as [|i]; [reflexivity|]. cbn [combine nth]. apply IH; lia.
Qed.

Lemma zip_lines_length (files : list (list str)) (i : nat) :
  (i < length (zip_lines files))%nat <->
  files <> [] /\ Forall (fun f => (i < length f)%nat) files.
Proof.
  induction files as [|f files IH].
  - cbn. split; [lia | intros [H _]; congruence].
  - cbn [zip_lines]. destruct files as [|g files].
    + rewrite length_map. split.
      * intros H. split; [discriminate | now repeat constructor].
      * intros [_ H]. now inversion H.
    + rewrite length_map, length_combine. split.
      * intros H. split; [discriminate|]. constructor; [lia|].
        apply IH. lia.
      * intros [_ H]. inversion H as [|? ? Hf Hrest]; subst.
        assert (i < length (zip_lines (g :: files)))%nat
          by (apply IH; split; [discriminate | assumption]).
        lia.
Qed.

Lemma zip_lines_nth (files : list (list str)) (i : nat) :
  (i < length (zip_lines files))%nat ->
  nth i (zip_lines files) []
  = map (fun f => nth i f []) files.
Proof.
  induction files as [|f files IH]; [cbn; lia|].
  intros Hi. pose proof (proj1 (zip_lines_length _ _) Hi) as [_ Hall].
  inversion Hall as [|? ? Hf Hrest]; subst.
  cbn [zip_lines] in *. destruct files as [|g files].
  - rewrite (nth_indep _ [] [[]]) by exact Hi.
    now rewrite (map_nth (fun line => [line])).
  - rewrite length_map, length_combine in Hi.
    rewrite (nth_indep _ [] ([] :: []))
      by (rewrite length_map, length_combine; exact Hi).
    rewrite (map_nth (fun pair : str * list str => fst pair :: snd pair) _
                     ([], [])).
    rewrite nth_combine by lia. cbn [fst snd map].
    f_equal. apply IH. lia.
Qed.

(** Alignment.  The tuples read from the files are as many as the shortest
    file has lines (none without files), and tuple [i] is made of line [i] of
    every file, in the order of the files. *)
Theorem zip_lines_aligned (files : list (list str)) (i : nat) :
  ((i < length (zip_lines files))%nat <->
   files <> [] /\ Forall (fun f => (i < length f)%nat) files) /\
  ((i < length (zip_lines files))%nat ->
   nth i (zip_lines files) []
   = map (fun f => nth i f []) files).
Proof.
  split.
  - apply zip_lines_length.
  - apply zip_lines_nth.
Qed.

Lemma survivesb_None (lines : list str) :
  survivesb None lines
  = negb (existsb is_empty lines).
Proof.
  unfold survivesb. now rewrite any_empty_spec, andb_true_r.
Qed.

Lemma full_reader_loop_spec (tuples : list (list str)) :
  forall examples,
    full_reader_loop examples tuples
    = examples ++ filter (survivesb None) (map (map strip) tuples).
Proof.
  induction tuples as [|lines tuples IH]; intros examples.
  - cbn. now rewrite app_nil_r.
  - cbn [full_reader_loop map filter]. rewrite survivesb_None.
    destruct (negb _); rewrite IH; [|reflexivity].
    now rewrite <- app_assoc.
Qed.

(** [full_reader] returns, in order, the stripped tuples without an empty
    field, and nothing else; [max_len] plays no part: a tuple with a field
    of more than [max_len] tokens is returned as well. *)
Theorem full_reader_keeps (files : list (list str)) (max_len : option Z) :
  full_reader files max_len = survivors None files /\
  forall lines,
    In lines (full_reader files max_len) <->
    In lines (map (map strip) (zip_lines files)) /\
    Forall (fun line => line <> []) lines.
Proof.
  assert (H : full_reader files max_len = survivors None files).
  { unfold full_reader. now rewrite full_reader_loop_spec. }
  split; [exact H|].
  intros lines. rewrite H. unfold survivors.
  rewrite filter_In, survivesb_spec. unfold survives.
  split; intros [Hin Hs]; (split; [exact Hin|]).
  - apply Hs.
  - split; [exact Hs | discriminate].
Qed.

Lemma lazy_reader_app (max_len : option Z) (buffer : Z)
    (t1 t2 : list (list str)) :
  forall st,
    lazy_reader max_len buffer st (t1 ++ t2)
    = match lazy_reader max_len buffer st t1 with
      | (ys, Ok st') =>
          let (ys', r) := lazy_reader max_len buffer st' t2 in
          (ys ++ ys', r)
      | (ys, Raise e) => (ys, Raise e)
      end.
Proof.
  induction t1 as [|lines t1 IH]; intros st.
  - cbn. now destruct (lazy_reader max_len buffer st t2).
  - cbn [app lazy_reader].
    destruct (reader_step max_len buffer st lines) as [ys [st1|e]];
      [|reflexivity].
    rewrite IH.
    destruct (lazy_reader max_len buffer st1 t1) as [ys1 [st2|e]].
    + destruct (lazy_reader max_len buffer st2 t2) as [ys2 r].
      now rewrite app_assoc.
    + reflexivity.
Qed.

Lemma lazy_reader_cycles_concat (max_len : option Z) (buffer : Z)
    (files : list (list str)) (cycles : nat) :
  forall st,
    lazy_reader_cycles cycles max_len buffer st files
    = lazy_reader max_len buffer st
        (concat (repeat (zip_lines files) cycles)).
Proof.
  induction cycles as [|cycles IH]; intros st; [reflexivity|].
  cbn [lazy_reader_cycles repeat concat]. rewrite lazy_reader_app.
  destruct (lazy_reader max_len buffer st (zip_lines files))
    as [ys [st'|e]]; [|reflexivity].
  now rewrite IH.
Qed.

Lemma lazy_reader_run (max_len : option Z) (buffer : Z)
    (tuples : list (list str)) :
  buffer <> 0 ->
  forall st,
  exists yielded st',
    lazy_reader max_len buffer st tuples = (yielded, Ok st') /\
    yielded ++ examples st'
    = examples st ++ filter (survivesb max_len) (map (map strip) tuples).
Proof.
  intros Hb. induction tuples as [|lines tuples IH]; intros st.
  - exists [], st. split; [reflexivity|]. cbn. now rewrite app_nil_r.
  - cbn [lazy_reader].
    destruct (reader_step_spec max_len buffer st lines Hb)
      as (ys & st1 & -> & Hys).
    destruct (IH st1) as (ys' & st2 & -> & Hys').
    exists (ys ++ ys'), st2. split; [reflexivity|].
    rewrite <- app_assoc, Hys'.
    change (map (map strip) (lines :: tuples))
      with ([map strip lines] ++ map (map strip) tuples).
    rewrite filter_app, !app_assoc. now rewrite Hys.
Qed.

Lemma survivors_repeat (max_len : option Z) (tuples : list (list str))
    (cycles : nat) :
  filter (survivesb max_len)
         (map (map strip) (concat (repeat tuples cycles)))
  = concat (repeat (filter (survivesb max_len) (map (map strip) tuples))
                   cycles).
Proof.
  induction cycles as [|cycles IH]; [reflexivity|].
  cbn [repeat concat]. now rewrite map_app, filter_app, IH.
Qed.

(** Restartability and buffering.  With a positive buffer size, [cycles]
    openings of the same files raise nothing and read the survivors of one
    opening over and over; of that repeated sequence of [n] examples the
    reader has yielded the first [n - n % buffer], in order, and holds the
    rest in its buffer. *)
Theorem lazy_reader_cycles_yield (cycles : nat) (max_len : option Z)
    (buffer : Z) (files : list (list str)) :
  0 < buffer ->
  let all := concat (repeat (survivors max_len files) cycles) in
  let n := len all in
  exists yielded st',
    lazy_reader_cycles cycles max_len buffer initial files
    = (yielded, Ok st') /\
    yielded = firstn (Z.to_nat (n - n mod buffer)) all /\
    examples st' = skipn (Z.to_nat (n - n mod buffer)) all /\
    out_step st' = n.
Proof.
  intros Hb all n. subst n all. rewrite lazy_reader_cycles_concat.
  destruct (lazy_reader_run max_len buffer
              (concat (repeat (zip_lines files) cycles)) ltac:(lia) initial)
    as (ys & st' & Hrun & Hall).
  rewrite survivors_repeat in Hall. cbn [initial examples app] in Hall.
  fold (survivors max_len files) in Hall.
  assert (Hinit : buffered buffer initial).
  { split; cbn [initial out_step examples length]; [lia|].
    now rewrite Z.mod_0_l by lia. }
  destruct (lazy_reader_buffered _ _ _ _ _ _ Hb Hinit Hrun)
    as [[_ Hlen] Ho].
  rewrite survivors_repeat in Ho. fold (survivors max_len files) in Ho.
  cbn [initial out_step] in Ho. rewrite Z.add_0_l in Ho.
  exists ys, st'. split; [exact Hrun|].
  unfold Example in *. rewrite <- Hall in Ho |- *. rewrite Ho in Hlen.
  match goal with
  | |- context [Z.to_nat ?e] =>
      replace (Z.to_nat e) with (length ys)
        by (rewrite length_app in Hlen |- *; lia)
  end.
  repeat split.
  - rewrite firstn_app, Nat.sub_diag, firstn_all. cbn. now rewrite app_nil_r.
  - rewrite skipn_app, Nat.sub_diag, skipn_all. reflexivity.
  - exact Ho.
Qed.

(** Without a buffer size ([buffer = 0]) nothing is ever yielded, and the
    reader raises [ZeroDivisionError] at the first tuple that is not dropped
    for its length. *)
Theorem lazy_reader_zero_buffer (max_len : option Z) (st : state)
    (tuples : list (list str)) :
  lazy_reader max_len 0 st tuples
  = ([], if forallb (too_long max_len) tuples then Ok st
         else Raise ZeroDivisionError).
Proof.
  induction tuples as [|lines tuples IH]; [reflexivity|].
  cbn [lazy_reader forallb]. unfold reader_step, too_long at 1.
  rewrite survivesb_None. unfold survivesb. rewrite any_empty_spec.
  destruct (forallb _ (map strip lines)); cbn [andb negb].
  - destruct max_len as [m|].
    + rewrite length_flag_spec.
      destruct (forallb _ (map strip lines)); cbn [negb andb].
      * reflexivity.
      * rewrite IH. reflexivity.
    + reflexivity.
  - reflexivity.
Qed.

Lemma lstrip_head (s : str) :
  lstrip s = [] \/
  exists c s', lstrip s = c :: s' /\ isspace c = false.
Proof.
  induction s as [|c s IH]; [now left|].
  cbn [lstrip]. destruct (isspace c) eqn:E; [exact IH|].
  right. now exists c, s.
Qed.

Lemma split_from_open (s : str) :
  forall w, split_from (Some w) s <> [].
Proof.
  induction s as [|c s IH]; intros w; cbn [split_from].
  - discriminate.
  - destruct (isspace c); [discriminate | apply IH].
Qed.

(** A stripped line that is not empty has at least one token. *)
Lemma stripped_has_token (raw : str) :
  strip raw <> [] -> 1 <= len (split (strip raw)).
Proof.
  intros Hne. unfold strip in *.
  destruct (lstrip_head (rstrip raw)) as [H|(c & s' & H & Hc)];
    [congruence|].
  rewrite H. unfold split. cbn [split_from]. rewrite Hc.
  pose proof (split_from_open s'
                ([] ++ [c])) as Hs.
  destruct (split_from _ s'); [congruence | cbn [length]; lia].
Qed.

Lemma survivor_tokens (max_len : option Z) (lines : list str) :
  survivesb max_len (map strip lines) = true ->
  Forall (fun line =>
            1 <= len (split line) /\
            forall m, max_len = Some m -> len (split line) <= m)
         (map strip lines).
Proof.
  intros H. apply survivesb_spec in H as [Hne Hlong].
  rewrite Forall_forall in *. intros line Hin. split.
  - apply in_map_iff in Hin as (raw & <- & Hraw).
    apply stripped_has_token. apply Hne. apply in_map_iff. now exists raw.
  - intros m Hm. specialize (Hlong m Hm). rewrite Forall_forall in Hlong.
    now apply Hlong.
Qed.

(** Every field of every example the lazy reader produces (yields or still
    buffers, started with an empty buffer) has at least one token and, when
    [max_len] is given, at most [max_len] tokens. *)
Theorem lazy_reader_token_bounds (max_len : option Z) (buffer : Z)
    (tuples : list (list str)) :
  buffer <> 0 ->
  exists yielded st',
    lazy_reader max_len buffer initial tuples = (yielded, Ok st') /\
    Forall
      (Forall (fun line =>
                 1 <= len (split line) /\
                 forall m, max_len = Some m -> len (split line) <= m))
      (yielded ++ examples st').
Proof.
  intros Hb.
  destruct (lazy_reader_run max_len buffer tuples Hb initial)
    as (ys & st' & Hrun & Hall).
  exists ys, st'. split; [exact Hrun|].
  rewrite Hall. cbn [initial examples app].
  apply Forall_forall. intros ex Hex.
  apply filter_In in Hex as [Hin Hs].
  apply in_map_iff in Hin as (lines & <- & _).
  now apply survivor_tokens.
Qed.

Import String.

Lemma zip_lines_aligned_witness :
  nth 1 (zip_lines [[text "a"; text "b"; text "c"]; [text "x"; text "y"]])
      []
  = [text "b"; text "y"].
Proof.
  apply (proj2 (zip_lines_aligned
                  [[text "a"; text "b"; text "c"]; [text "x"; text "y"]] 1)).
  cbn. lia.
Defined.

Lemma lazy_reader_token_bounds_witness :
  exists yielded st',
    lazy_reader (Some 2) 1 initial
      [[text "a" ++ [160] ++ text "b"; [8195] ++ text "c "];
       [text "a b c"; text "d"]]
    = (yielded, Ok st') /\
    Forall
      (Forall (fun line =>
                 1 <= len (split line) /\
                 forall m, Some 2 = Some m -> len (split line) <= m))
      (yielded ++ examples st').
Proof.
  apply (lazy_reader_token_bounds (Some 2) 1
           [[text "a" ++ [160] ++ text "b"; [8195] ++ text "c "];
            [text "a b c"; text "d"]]).
  lia.
Defined.

Lemma lazy_reader_cycles_yield_witness :
  exists yielded st',
    lazy_reader_cycles 3 None 2 initial
      [[text "a"; [12288]; text "b "]; [text "x"; text "y"; text "z"]]
    = (yielded, Ok st') /\
    yielded = [[text "a"; text "x"]; [text "b"; text "z"];
               [text "a"; text "x"]; [text "b"; text "z"];
               [text "a"; text "x"]; [text "b"; text "z"]] /\
    examples st' = [] /\
    out_step st' = 6.
Proof.
  apply (lazy_reader_cycles_yield 3 None 2
           [[text "a"; [12288]; text "b "];
            [text "x"; text "y"; text "z"]]).
  lia.
Defined.

End FilesFacts.

(** ** More about the cost functions *)

Module CostMore.

Import Assembler AssemblerFacts Cost CostFacts Cost2D.

Section WithToken.

Context {token : Type}.

Lemma batch_sum_le_padded (batch : list (Example token)) :
  0 <= batch_sum_len token batch
  /\ batch_sum_len token batch <= batch_max_len token batch * len batch
  /\ 0 <= batch_max_len token batch.
Proof.
  unfold batch_sum_len, batch_max_len.
  induction batch as [|ex batch (IH0 & IH & IHm)]; [cbn; lia|].
  cbn [map fold_right length].
  set (m := max_field_len token ex) in *.
  assert (0 <= m) by (subst m; unfold max_field_len; lia).
  set (S := fold_right Z.add 0 _) in *.
  set (M := fold_right Z.max 0 _) in *.
  repeat split; [lia | | lia].
  assert (M * len batch <= Z.max m M * len batch)
    by (apply Z.mul_le_mono_nonneg_r; lia).
  nia.
Qed.

(** The padded cost of a batch is never below its unpadded cost: the longest
    field times the number of examples is at least the sum of the examples'
    longest fields. *)
Theorem padding_dominates (batch : list (Example token)) :
  (batch_cost (dyn_batch_without_padding token) batch
   <= batch_cost (dyn_batch_with_padding token) batch)%Q.
Proof.
  rewrite without_padding_cost, with_padding_cost.
  rewrite <- Zle_Qle. apply batch_sum_le_padded.
Qed.

Lemma with_padding_monotone : monotone (dyn_batch_with_padding token).
Proof.
  intros batch ex. rewrite !with_padding_cost, <- Zle_Qle.
  rewrite batch_max_len_snoc, length_app. cbn [length].
  destruct (batch_sum_le_padded batch) as (_ & _ & HM).
  set (M := batch_max_len token batch) in *.
  set (m := max_field_len token ex).
  assert (M * len batch <= Z.max m M * len batch)
    by (apply Z.mul_le_mono_nonneg_r; lia).
  nia.
Qed.

Lemma count_monotone : monotone (count_batch_size_fn token).
Proof.
  intros batch ex. rewrite !count_cost, <- Zle_Qle, length_app. lia.
Qed.

End WithToken.

Lemma char2d_monotone {char : Type} : monotone (dyn_batch_char2d char).
Proof.
  intros batch ex. rewrite batch_cost_snoc. unfold dyn_batch_char2d.
  rewrite py_max2_inject.
  rewrite <- (Qplus_0_r (batch_cost _ batch)) at 1.
  apply Qplus_le_compat; [apply Qle_refl|].
  change 0%Q with (inject_Z 0). rewrite <- Zle_Qle.
  assert (H : forall field : list (list char), 0 <= total_chars char field).
  { unfold total_chars. induction field; cbn; lia. }
  pose proof (H (src ex)). lia.
Qed.

(** Every cost function of [DataLoader] is monotone: appending an example
    to a batch never lowers the accumulated cost. *)
Theorem cost_functions_monotone {token : Type} :
  monotone (count_batch_size_fn token) /\
  monotone (dyn_batch_without_padding token) /\
  monotone (dyn_batch_with_padding token) /\
  monotone (dyn_batch_char2d token) /\
  forall batch_size, monotone (batch_size_fn token batch_size).
Proof.
  refine (conj _ (conj _ (conj _ (conj _ _)))).
  - apply count_monotone.
  - apply without_padding_monotone.
  - apply with_padding_monotone.
  - apply char2d_monotone.
  - intros batch_size. unfold batch_size_fn.
    destruct (batch_size =? 1);
      [apply count_monotone | apply without_padding_monotone].
Qed.

End CostMore.

(** ** Trimming and filtering the decoded tokens *)

Module FieldFacts.

Import Field.

Section Facts.

Variables (init_token pad_token eos_token : option str).

Lemma trim_spec (s : list str) (t : option str) :
  exists rest,
    s = trim s t ++ rest /\
    Forall (fun w => is_token t w = false) (trim s t) /\
    (rest = [] \/ exists w r, rest = w :: r /\ is_token t w = true).
Proof.
  induction s as [|w s (rest & Hs & Hclean & Hrest)].
  - exists []. repeat split; [constructor | now left].
  - cbn [trim]. destruct (is_token t w) eqn:E.
    + exists (w :: s). repeat split; [constructor|].
      right. now exists w, s.
    + exists rest. split; [cbn [app]; now rewrite <- Hs|].
      split; [now constructor | exact Hrest].
Qed.

Lemma count_step_filtered (width : Z) (c : counters) (e : str) :
  filtered (count_step init_token pad_token width c e)
  = filtered c ++ filter (filter_special init_token pad_token) [e] /\
  len (decision (count_step init_token pad_token width c e))
  - len (filtered (count_step init_token pad_token width c e))
  = len (decision c) - len (filtered c) /\
  (Forall (fun d => d = 0 \/ d = 1) (decision c) ->
   Forall (fun d => d = 0 \/ d = 1)
          (decision (count_step init_token pad_token width c e))).
Proof.
  unfold count_step, filter_special. cbn [filter].
  destruct (is_token init_token e); cbn [orb negb].
  { rewrite app_nil_r. repeat split; auto. }
  destruct (is_token pad_token e); cbn [orb negb].
  { destruct (n_word c >? 0); cbn [filtered decision];
      rewrite app_nil_r; repeat split; auto. }
  destruct (n_word c <? width - 1).
  - destruct (n_word c + 1 =? 1); cbn [filtered decision];
      rewrite !length_app; cbn [length]; repeat split; try lia;
      intros H; apply Forall_app; split; auto.
  - change (0 =? 1) with false. cbv iota. cbn [filtered decision].
    rewrite !length_app. cbn [length]. repeat split; try lia.
    intros H. apply Forall_app. split; auto.
Qed.

Lemma count_filtered (width : Z) (ex : list str) :
  forall c,
    filtered (fold_left (count_step init_token pad_token width) ex c)
    = filtered c ++ filter (filter_special init_token pad_token) ex /\
    len (decision (fold_left (count_step init_token pad_token width) ex c))
    - len (filtered (fold_left (count_step init_token pad_token width) ex c))
    = len (decision c) - len (filtered c) /\
    (Forall (fun d => d = 0 \/ d = 1) (decision c) ->
     Forall (fun d => d = 0 \/ d = 1)
       (decision (fold_left (count_step init_token pad_token width) ex c))).
Proof.
  induction ex as [|e ex IH]; intros c.
  - cbn. rewrite app_nil_r. auto.
  - cbn [fold_left].
    destruct (IH (count_step init_token pad_token width c e))
      as (Hf & Hd & Hb).
    destruct (count_step_filtered width c e) as (Hf1 & Hd1 & Hb1).
    rewrite Hd, Hd1, Hf, Hf1. repeat split.
    + rewrite <- app_assoc. f_equal.
      change (e :: ex) with ([e] ++ ex). now rewrite filter_app.
    + auto.
Qed.

(** The tokens [count] keeps are exactly those [filter_special] keeps, in
    order, so both ways of [reverse] return the same sentences; [count]
    records one decision, 0 or 1, for each kept token. *)
Theorem count_agrees_with_filter (width : Z) (ex : list str) :
  filtered (count init_token pad_token width ex)
  = filter (filter_special init_token pad_token) ex /\
  len (decision (count init_token pad_token width ex))
  = len (filtered (count init_token pad_token width ex)) /\
  Forall (fun d => d = 0 \/ d = 1)
         (decision (count init_token pad_token width ex)) /\
  forall batch,
    batch_filtered init_token pad_token eos_token width true batch
    = batch_filtered init_token pad_token eos_token width false batch.
Proof.
  unfold count.
  destruct (count_filtered width ex (mk_counters 0 0 0 [] []))
    as (Hf & Hd & Hb).
  cbn [filtered decision length app] in Hf, Hd, Hb.
  refine (conj Hf (conj _ (conj (Hb (Forall_nil _)) _))); [lia|].
  intros batch. unfold batch_filtered. apply map_ext. intros s.
  unfold count.
  now destruct (count_filtered width s (mk_counters 0 0 0 [] []))
    as (-> & _).
Qed.

Lemma count_step_grouped (width : Z) (c : counters) (e : str) :
  1 <= width -> grouped width c ->
  grouped width (count_step init_token pad_token width c e).
Proof.
  intros Hw (Hword & Hstep & Hlo & Hhi). unfold count_step, grouped.
  destruct (is_token init_token e); [repeat split; lia|].
  destruct (is_token pad_token e).
  { destruct (n_word c >? 0) eqn:E;
      cbn [n_word n_step filtered]; repeat split; lia. }
  destruct (n_word c <? width - 1) eqn:E;
    [destruct (n_word c + 1 =? 1) | change (0 =? 1) with false; cbv iota];
    cbn [n_word n_step filtered]; rewrite length_app; cbn [length];
    repeat split; lia.
Qed.

Lemma count_grouped (width : Z) (ex : list str) :
  1 <= width ->
  forall c,
    grouped width c ->
    grouped width (fold_left (count_step init_token pad_token width) ex c).
Proof.
  intros Hw. induction ex as [|e ex IH]; intros c Hc; [exact Hc|].
  cbn [fold_left]. apply IH. now apply count_step_grouped.
Qed.

(** For [width >= 1] the two integers [saved_time] is the quotient of
    satisfy [0 <= n_step + (n_word == 0) <= 1 + len(filtered)], and the kept
    tokens number between [n_step + n_word] and [n_step * width + n_word];
    for [width = 1] the two integers are equal. *)
Theorem saved_time_bounds (width : Z) (ex : list str) :
  1 <= width ->
  let c := count init_token pad_token width ex in
  0 <= fst (saved_time_parts c) <= snd (saved_time_parts c) /\
  n_step c + n_word c <= len (filtered c) <= n_step c * width + n_word c /\
  0 <= n_word c < width /\
  (width = 1 -> fst (saved_time_parts c) = snd (saved_time_parts c)).
Proof.
  intros Hw c.
  assert (Hc : grouped width c).
  { apply count_grouped; [exact Hw|]. unfold grouped. cbn. lia. }
  destruct Hc as (Hword & Hstep & Hlo & Hhi).
  unfold saved_time_parts. cbn [fst snd].
  destruct (n_word c =? 0) eqn:E; repeat split; try lia.
Qed.

End Facts.

Import String.

Lemma saved_time_bounds_witness :
  let c := count (Some "<init>"%string) (Some "<pad>"%string) 2
                 ["<init>"; "a"; "b"; "<pad>"; "c"]%string in
  0 <= fst (saved_time_parts c) <= snd (saved_time_parts c).
Proof.
  cbv zeta.
  apply (saved_time_bounds (Some "<init>"%string) (Some "<pad>"%string) 2
           ["<init>"; "a"; "b"; "<pad>"; "c"]%string).
  lia.
Defined.

(** What [reverse] hands to the reverse tokenizer holds no special token:
    every sentence is free of the eos, init and pad tokens, and is made of
    tokens the decoded sentence had before its first eos token. *)
Theorem reverse_drops_special_tokens
    (init_token pad_token eos_token : option str) (width : Z)
    (return_saved_time : bool) (batch : list (list str)) :
  Forall2
    (fun ex sentence =>
       Forall (fun tok =>
                 is_token eos_token tok = false /\
                 is_token init_token tok = false /\
                 is_token pad_token tok = false /\
                 In tok (trim ex eos_token))
              sentence)
    batch
    (batch_filtered init_token pad_token eos_token width return_saved_time
                    batch).
Proof.
  assert (H : batch_filtered init_token pad_token eos_token width
                             return_saved_time batch
              = map (fun ex => filter (filter_special init_token pad_token)
                                      (trim ex eos_token)) batch).
  { destruct return_saved_time.
    - unfold batch_filtered. rewrite !map_map. apply map_ext. intros ex.
      unfold count.
      now destruct (count_filtered init_token pad_token width
                      (trim ex eos_token) (mk_counters 0 0 0 [] []))
        as (-> & _).
    - unfold batch_filtered. now rewrite map_map. }
  rewrite H. clear H. induction batch as [|ex batch IH]; [constructor|].
  cbn [map]. constructor; [|exact IH].
  apply Forall_forall. intros tok Htok.
  apply filter_In in Htok as [Hin Hspecial].
  destruct (trim_spec ex eos_token) as (rest & _ & Hclean & _).
  rewrite Forall_forall in Hclean.
  unfold filter_special in Hspecial.
  apply negb_true_iff, orb_false_iff in Hspecial as [Hi Hp].
  repeat split; auto.
Qed.

End FieldFacts.

(** ** No empty shard in sort mode *)

Module NoEmptyShard.

Import PyList PyListFacts Shard ShardFacts Assembler AssemblerFacts.
Import AssemblerClaims Iterator IteratorFacts Pool SortFacts.

Lemma fetch_loop_reserved {A : Type} (data : list A) (batch_size : Z)
    (fn : cost_fn A) (world_size : Z) :
  0 <= world_size <= len data ->
  exists ys m2 s2,
    fetch_loop batch_size fn world_size true 0 data initial
    = (ys, mk_state m2 s2 (firstn (Z.to_nat world_size) data)).
Proof.
  intros HW.
  set (pre := firstn (Z.to_nat world_size) data).
  set (rest := skipn (Z.to_nat world_size) data).
  assert (Hpre : len pre = world_size)
    by (subst pre; rewrite length_firstn; lia).
  assert (H : exists ys m2 s2,
    fetch_loop batch_size fn world_size true 0 (pre ++ rest) initial
    = (ys, mk_state m2 s2 pre)).
  { unfold initial. rewrite reserve_phase by lia. cbn [app].
    destruct (fetch_loop_past_reserve batch_size fn world_size rest
                (0 + len pre) 0 [] 0%Q pre [] ltac:(lia))
      as (ys & m2 & s2 & Ht & _).
    now exists ys, m2, s2. }
  subst pre rest. now rewrite firstn_skipn in H.
Qed.

Lemma reserve_batches_long {A : Type} (data : list A) (batch_size : Z)
    (batch_size_fn : option (cost_fn A)) (world_size : Z) :
  0 <= world_size <= len data ->
  Forall (fun b => world_size <= len b)
    (fetch_batch data batch_size batch_size_fn world_size true).
Proof.
  intros HW. rewrite fetch_batch_loop. apply Forall_app. split.
  - pose proof (fetch_loop_inv batch_size (or_default batch_size_fn)
                  world_size true data 0 initial ltac:(lia)) as [Hall _].
    { split; [reflexivity|]. cbn. lia. }
    eapply Forall_impl; [|exact Hall].
    intros b [Hb _]. lia.
  - constructor; [|constructor].
    destruct (fetch_loop_reserved data batch_size
                (or_default batch_size_fn) world_size HW)
      as (ys & m2 & s2 & ->).
    cbn [snd final_batch minibatch reserved_minibatch].
    rewrite length_app, length_firstn. lia.
Qed.

Lemma long_batch_shard {A : Type} (data : list A) (W R : Z) :
  1 <= W -> W <= len data -> 0 <= R < W ->
  exists shard, DistributedBatch data W R = Ok shard /\ 1 <= len shard.
Proof.
  intros HW HB HR. eexists. split.
  - apply DistributedBatch_inside; lia.
  - pose proof (cut_nonneg (len data) W ltac:(lia) HW R ltac:(lia)).
    pose proof (cut_le_B (len data) W ltac:(lia) HW (R + 1) ltac:(lia)).
    pose proof (cut_step (len data) W R) as Hstep.
    assert (1 <= len data / W) by (apply Z.div_le_lower_bound; lia).
    rewrite length_firstn, length_skipn.
    destruct (R <? _); lia.
Qed.

(** In sort mode no rank ever receives an empty batch: when the examples
    are at least [world_size >= 1] many, every batch [create_batches] builds
    with [sort] set, the final one included, has at least [world_size]
    examples, and every rank's shard of it has at least one. *)
Theorem sort_mode_no_empty_shard {A : Type} (self : iterator A)
    (data : list A) (batch_size : Z) (batch_size_fn : option (cost_fn A))
    (random_shuffler : list (list A) -> list (list A)) :
  1 <= world_size self -> world_size self <= len data ->
  forall b,
    In b (create_batches true data batch_size (sort_key self) batch_size_fn
                         random_shuffler (world_size self)) ->
    world_size self <= len b /\
    forall r,
      0 <= r < world_size self ->
      exists shard,
        per_rank (on_rank self r) b = Ok shard /\ 1 <= len shard.
Proof.
  intros HW Hdata b Hb. cbn [create_batches] in Hb.
  pose proof (reserve_batches_long data batch_size batch_size_fn
                (world_size self) ltac:(lia)) as Hall.
  rewrite Forall_forall in Hall. specialize (Hall b Hb).
  split; [exact Hall|].
  intros r Hr. unfold per_rank. cbn [on_rank sort_within_batch sort_key
                                     world_size rank].
  apply long_batch_shard; [exact HW | | exact Hr].
  destruct (sort_within_batch self); [|exact Hall].
  now rewrite (Permutation_length (sort_reverse_perm (sort_key self) b)).
Qed.

Lemma sort_mode_no_empty_shard_witness :
  let self := mk_iterator (fun x : Z => x) true 0 2 0 0 in
  exists shard,
    per_rank (on_rank self 1) [3; 4; 5; 1; 2] = Ok shard /\ 1 <= len shard.
Proof.
  cbv zeta.
  apply (sort_mode_no_empty_shard
           (mk_iterator (fun x : Z => x) true 0 2 0 0)
           [1; 2; 3; 4; 5] 3 None (fun l => l)
           ltac:(cbn; lia) ltac:(cbn; lia) [3; 4; 5; 1; 2]).
  - vm_compute. left. reflexivity.
  - cbn. lia.
Defined.

End NoEmptyShard.

(** ** The padded grid *)

Module GridFacts.

Import PyList PyListFacts Grid.

Lemma fold_max_spec (l : list Z) :
  forall x,
    x <= fold_left Z.max l x /\
    Forall (fun y => y <= fold_left Z.max l x) l.
Proof.
  induction l as [|y l IH]; intros x; cbn [fold_left].
  - split; [lia | constructor].
  - destruct (IH (Z.max x y)) as [Hx Hl]. split; [lia|].
    constructor; [lia | exact Hl].
Qed.

Lemma max_of_spec (l : list Z) (m : Z) :
  max_of l = Some m -> Forall (fun y => y <= m) l.
Proof.
  destruct l as [|x l]; [discriminate|]. cbn [max_of]. intros [= <-].
  destruct (fold_max_spec l x) as [Hx Hl]. now constructor.
Qed.

Lemma max_of_some (l : list Z) : l <> [] -> exists m, max_of l = Some m.
Proof. destruct l; [congruence | intros _; eexists; reflexivity]. Qed.

Section Facts.

Context {T : Type}.
Variables (init_token eos_token pad_token space : T).

Abbreviation pad_sentence' :=
  (pad_sentence T init_token eos_token pad_token space) (only parsing).
Abbreviation pad_word' := (pad_word T pad_token) (only parsing).

Lemma pad_sentence_shape (max_len : Z) (x : list (list T)) :
  len x + 2 <= max_len ->
  len (fst (pad_sentence' max_len x)) = max_len /\
  snd (pad_sentence' max_len x) = len x + 2 /\
  Forall (fun word => word <> []) (fst (pad_sentence' max_len x)).
Proof.
  intros Hx. unfold pad_sentence. cbn [fst snd].
  set (x' := [[init_token]] ++ map (fun word => word ++ [space]) x
             ++ [[eos_token]]).
  assert (Hx' : len x' = len x + 2).
  { subst x'. rewrite !length_app, length_map. cbn [length]. lia. }
  rewrite length_app, repeat_length, Hx'.
  repeat split; try lia.
  apply Forall_app. split.
  - subst x'. constructor; [discriminate|].
    apply Forall_app. split; [|repeat constructor; discriminate].
    apply Forall_forall. intros word Hin.
    apply in_map_iff in Hin as (w & <- & _). now destruct w.
  - apply Forall_forall. intros word Hin.
    apply repeat_spec in Hin. subst. discriminate.
Qed.

Lemma pad_word_snoc (max_word : Z) (w : list T) (c : T) :
  pad_word' max_word (w ++ [c])
  = w ++ repeat pad_token (Z.to_nat (max_word - len w - 1)) ++ [c].
Proof.
  unfold pad_word. rewrite slice_to_snoc, slice_from_snoc.
  rewrite length_app. cbn [length]. do 2 f_equal. f_equal.
  rewrite Nat2Z.inj_add.
  destruct (Z.max_spec 0 (max_word - (len w + Z.of_nat 1)))
    as [[? ->]|[? ->]]; lia.
Qed.

Lemma pad_word_length (max_word : Z) (word : list T) :
  word <> [] -> len word <= max_word ->
  len (pad_word' max_word word) = max_word.
Proof.
  intros Hne Hlen.
  destruct (exists_last Hne) as (w & c & ->).
  rewrite pad_word_snoc, !length_app, repeat_length.
  rewrite length_app in Hlen. cbn [length] in *. lia.
Qed.

(** [pad] on a minibatch that is not empty, for a sequential field without
    [fix_length]: nothing is raised and the result is a rectangular grid,
    one row for each sentence, every row of [max_len] words (two more than
    the longest sentence), every word of the same number [max_word] of
    entries; the lengths returned are the sentence lengths plus two. *)
Theorem pad_rectangular (include_lengths : bool)
    (minibatch : list (list (list T))) :
  minibatch <> [] ->
  exists grid lengths longest max_word,
    pad T init_token eos_token pad_token space true None include_lengths
        minibatch
    = Done (Padded grid lengths) /\
    max_of (map (fun x => len x) minibatch) = Some longest /\
    length grid = length minibatch /\
    Forall (fun row => len row = longest + 2) grid /\
    Forall (Forall (fun word => len word = max_word)) grid /\
    lengths = (if include_lengths
               then Some (map (fun x => len x + 2) minibatch) else None).
Proof.
  intros Hne. unfold pad. cbn [negb].
  destruct (max_of_some (map (fun x => len x) minibatch)) as (longest & Hm).
  { destruct minibatch; [congruence | discriminate]. }
  rewrite Hm. pose proof (max_of_spec _ _ Hm) as Hlongest.
  rewrite Forall_map in Hlongest.
  set (rows := map (pad_sentence' (longest + 2)) minibatch).
  assert (Hrows : Forall
    (fun x => len (fst (pad_sentence' (longest + 2) x)) = longest + 2 /\
              snd (pad_sentence' (longest + 2) x) = len x + 2 /\
              Forall (fun word => word <> [])
                     (fst (pad_sentence' (longest + 2) x)))
    minibatch).
  { eapply Forall_impl; [|exact Hlongest].
    intros x Hx. cbv beta in Hx. apply pad_sentence_shape. lia. }
  destruct (max_of_some
              (map (fun word => len word) (concat (map fst rows))))
    as (max_word & Hw).
  { subst rows. destruct minibatch as [|x minibatch]; [congruence|].
    discriminate. }
  rewrite Hw. pose proof (max_of_spec _ _ Hw) as Hwords.
  rewrite Forall_map, Forall_concat in Hwords.
  do 4 eexists. split; [reflexivity|]. split; [reflexivity|].
  subst rows. rewrite !map_map in *. rewrite Forall_map in Hwords.
  rewrite Forall_forall in Hrows, Hwords.
  repeat split.
  - now rewrite length_map.
  - rewrite Forall_map. apply Forall_forall. intros x Hx.
    rewrite length_map. now apply Hrows.
  - rewrite Forall_map. apply Forall_forall. intros x Hx.
    rewrite Forall_map. apply Forall_forall. intros word Hword.
    destruct (Hrows x Hx) as (_ & _ & Hnonempty).
    specialize (Hwords x Hx).
    rewrite Forall_forall in Hnonempty, Hwords.
    apply pad_word_length; [now apply Hnonempty | now apply Hwords].
  - destruct include_lengths; [|reflexivity]. f_equal.
    apply map_ext_in. intros x Hx. now apply Hrows.
Qed.

(** In the grid [pad] returns, a row starts with the init word and carries
    the words of its sentence next, each followed by pad entries and closed
    by the [' '] that [pad] appended to it: the characters of a word are the
    first entries of its cell. *)
Theorem pad_keeps_words (include_lengths : bool)
    (minibatch : list (list (list T))) (i j : nat)
    (x : list (list T)) (w : list T) :
  nth_error minibatch i = Some x ->
  nth_error x j = Some w ->
  exists grid lengths row max_word,
    pad T init_token eos_token pad_token space true None include_lengths
        minibatch
    = Done (Padded grid lengths) /\
    nth_error grid i = Some row /\
    nth_error row 0
    = Some (repeat pad_token (Z.to_nat (max_word - 1)) ++ [init_token]) /\
    nth_error row (S j)
    = Some (w ++ repeat pad_token (Z.to_nat (max_word - len w - 1))
              ++ [space]).
Proof.
  intros Hx Hw.
  assert (Hne : minibatch <> []) by (intros ->; now destruct i).
  destruct (max_of_some (map (fun x => len x) minibatch)) as (longest & Hm).
  { destruct minibatch; [congruence | discriminate]. }
  unfold pad. cbn [negb]. rewrite Hm.
  destruct (max_of_some
              (map (fun word => len word)
                   (concat (map fst (map (pad_sentence' (longest + 2))
                                         minibatch)))))
    as (max_word & ->).
  { destruct minibatch as [|x0 minibatch]; [congruence|]. discriminate. }
  do 3 eexists. exists max_word. split; [reflexivity|].
  rewrite !map_map. rewrite nth_error_map, Hx. cbn [option_map].
  split; [reflexivity|]. unfold pad_sentence. cbn [fst app nth_error map].
  split.
  - f_equal. change [init_token] with ([] ++ [init_token]).
    rewrite pad_word_snoc. cbn [length app]. do 2 f_equal. lia.
  - rewrite <- app_assoc. rewrite map_app, nth_error_app1.
    + rewrite !nth_error_map, Hw. cbn [option_map]. f_equal.
      apply pad_word_snoc.
    + rewrite !length_map. apply nth_error_Some. congruence.
Qed.

End Facts.

Lemma pad_rectangular_witness :
  exists grid lengths longest max_word,
    pad Z (-1) (-2) 0 32 true None true [[[1; 2]; [3]]; [[4]]]
    = Done (Padded grid lengths) /\
    max_of (map (fun x => len x) [[[1; 2]; [3]]; [[4]]]) = Some longest /\
    length grid = 2%nat /\
    Forall (fun row => len row = longest + 2) grid /\
    Forall (Forall (fun word => len word = max_word)) grid /\
    lengths = Some [4; 3].
Proof.
  apply (pad_rectangular (-1) (-2) 0 32 true [[[1; 2]; [3]]; [[4]]]).
  discriminate.
Defined.

Lemma pad_keeps_words_witness :
  exists grid lengths row max_word,
    pad Z (-1) (-2) 0 32 true None true [[[1; 2]; [3]]; [[4]]]
    = Done (Padded grid lengths) /\
    nth_error grid 0 = Some row /\
    nth_error row 0 = Some (repeat 0 (Z.to_nat (max_word - 1)) ++ [-1]) /\
    nth_error row 2
    = Some ([3] ++ repeat 0 (Z.to_nat (max_word - 1 - 1)) ++ [32]).
Proof.
  apply (pad_keeps_words (-1) (-2) 0 32 true [[[1; 2]; [3]]; [[4]]]
           0 1 [[1; 2]; [3]] [3]); reflexivity.
Defined.

End GridFacts.

(** ** The byte-level round trip *)

Module BytesFacts.

Import Bytes.

(** Decides the tests of the codecs once their arguments are bounded. *)
Ltac decide_tests :=
  repeat match goal with
         | |- context [if ?b then _ else _] =>
             let E := fresh "E" in destruct b eqn:E; try (exfalso; lia)
         end.

Lemma hex_digit_value (d : Z) :
  0 <= d < 16 ->
  hex_value (hex_digit d) = Some d /\ ascii_space (hex_digit d) = false.
Proof.
  intros Hd. unfold hex_value, hex_digit, ascii_space.
  destruct (d <? 10) eqn:E; split; decide_tests; try (f_equal; lia); lia.
Qed.

Lemma fromhex_hex (bs : list Z) :
  Forall byte bs -> fromhex (hex bs) = Some bs.
Proof.
  induction 1 as [|b bs Hb _ IH]; [reflexivity|].
  unfold byte in Hb.
  assert (Hhi : 0 <= b / 16 < 16).
  { split; [apply Z.div_pos; lia | apply Z.div_lt_upper_bound; lia]. }
  pose proof (Z.mod_pos_bound b 16 ltac:(lia)) as Hlo.
  destruct (hex_digit_value _ Hhi) as [Hv1 Hs1].
  destruct (hex_digit_value _ Hlo) as [Hv2 _].
  cbn [hex flat_map app fromhex]. rewrite Hs1, Hv1, Hv2.
  fold (hex bs). rewrite IH. cbn [option_map]. do 2 f_equal.
  pose proof (Z.div_mod b 16 ltac:(lia)). lia.
Qed.

Lemma pairs_hex (bs : list Z) :
  pairs (hex bs)
  = map (fun b => [hex_digit (b / 16); hex_digit (b mod 16)]) bs.
Proof.
  induction bs as [|b bs IH]; [reflexivity|].
  cbn [hex flat_map app pairs map]. fold (hex bs). now rewrite IH.
Qed.

Lemma concat_pairs_hex (bs : list Z) : concat (pairs (hex bs)) = hex bs.
Proof.
  rewrite pairs_hex. unfold hex. now rewrite flat_map_concat_map.
Qed.

Lemma encode_char_decodes (c : Z) :
  scalar c ->
  exists bs,
    encode_char c = Some bs /\
    Forall byte bs /\
    len bs = utf8_length c /\
    forall rest, decode (bs ++ rest) = option_map (cons c) (decode rest).
Proof.
  intros [Hrange Hsurrogate]. unfold encode_char, utf8_length, byte.
  pose proof (Z.div_mod c 64 ltac:(lia)) as H0.
  pose proof (Z.mod_pos_bound c 64 ltac:(lia)) as B0.
  pose proof (Z.div_mod (c / 64) 64 ltac:(lia)) as H1.
  pose proof (Z.mod_pos_bound (c / 64) 64 ltac:(lia)) as B1.
  pose proof (Z.div_mod (c / 64 / 64) 64 ltac:(lia)) as H2.
  pose proof (Z.mod_pos_bound (c / 64 / 64) 64 ltac:(lia)) as B2.
  replace (c / 4096) with (c / 64 / 64)
    by (rewrite Z.div_div by lia; reflexivity).
  replace (c / 262144) with (c / 64 / 64 / 64)
    by (rewrite !Z.div_div by lia; reflexivity).
  revert H0 B0 H1 B1 H2 B2.
  generalize (c / 64 / 64 / 64), ((c / 64 / 64) mod 64).
  generalize (c / 64 / 64), ((c / 64) mod 64).
  generalize (c / 64), (c mod 64).
  intros q1 r0 q2 r1 q3 r2 H0 B0 H1 B1 H2 B2.
  destruct (c <? 128) eqn:E1.
  { eexists. split; [reflexivity|]. split; [repeat constructor; lia|].
    split; [reflexivity|]. intros rest. cbn [app decode].
    decide_tests. reflexivity. }
  destruct (c <? 2048) eqn:E2.
  { eexists. split; [reflexivity|]. split; [repeat constructor; lia|].
    split; [reflexivity|]. intros rest. cbn [app decode].
    unfold continuation. decide_tests. do 2 f_equal. lia. }
  replace ((55296 <=? c) && (c <=? 57343)) with false by lia.
  destruct (c <? 65536) eqn:E3.
  { eexists. split; [reflexivity|]. split; [repeat constructor; lia|].
    split; [reflexivity|]. intros rest. cbn [app decode].
    unfold continuation. cbv zeta. decide_tests. do 2 f_equal. lia. }
  eexists. split; [reflexivity|]. split; [repeat constructor; lia|].
  split; [reflexivity|]. intros rest. cbn [app decode].
  unfold continuation. cbv zeta. decide_tests. do 2 f_equal. lia.
Qed.

Lemma encode_decodes (string : ustr) :
  Forall scalar string ->
  exists bs,
    encode string = Some bs /\
    Forall byte bs /\
    len bs = fold_right Z.add 0 (map utf8_length string) /\
    decode bs = Some string.
Proof.
  induction 1 as [|c string Hc _ (bs' & He & Hb & Hl & Hd)].
  - exists []. repeat split. constructor.
  - destruct (encode_char_decodes c Hc) as (bs & Hec & Hbc & Hlc & Hdc).
    exists (bs ++ bs'). cbn [encode map fold_right]. rewrite Hec, He.
    split; [reflexivity|]. split; [now apply Forall_app|].
    split; [rewrite length_app; lia|].
    now rewrite Hdc, Hd.
Qed.

(** Round trip.  A string without surrogates is turned by [str2byte] into
    one token for each byte of its UTF-8 form, each token two lower-case hex
    digits, and [byte2str] gives the string back from these tokens. *)
Theorem byte2str_str2byte (string : ustr) :
  Forall scalar string ->
  exists tokens,
    str2byte string = Some tokens /\
    byte2str tokens = string /\
    len tokens = fold_right Z.add 0 (map utf8_length string) /\
    Forall (fun token =>
              exists hi lo,
                token = [hex_digit hi; hex_digit lo] /\
                0 <= hi < 16 /\ 0 <= lo < 16)
           tokens.
Proof.
  intros Hs.
  destruct (encode_decodes string Hs) as (bs & He & Hb & Hl & Hd).
  exists (pairs (hex bs)). unfold str2byte, byte2str. rewrite He.
  split; [reflexivity|].
  rewrite concat_pairs_hex, fromhex_hex, Hd by assumption.
  split; [reflexivity|]. rewrite pairs_hex, length_map.
  split; [exact Hl|].
  rewrite Forall_map. eapply Forall_impl; [|exact Hb].
  intros b Hbyte. unfold byte in Hbyte. exists (b / 16), (b mod 16).
  split; [reflexivity|]. split.
  - split; [apply Z.div_pos; lia | apply Z.div_lt_upper_bound; lia].
  - apply Z.mod_pos_bound. lia.
Qed.

Lemma byte2str_str2byte_witness :
  exists tokens,
    str2byte [233; 8364; 128512; 97] = Some tokens /\
    byte2str tokens = [233; 8364; 128512; 97] /\
    len tokens = 10.
Proof.
  destruct (byte2str_str2byte [233; 8364; 128512; 97])
    as (tokens & H1 & H2 & H3 & _).
  - repeat constructor; unfold scalar; lia.
  - exists tokens. exact (conj H1 (conj H2 H3)).
Defined.

Lemma encode_none (string : ustr) :
  Forall (fun c => 0 <= c < 1114112) string ->
  (encode string = None <-> Exists (fun c => 55296 <= c <= 57343) string).
Proof.
  induction 1 as [|c string Hc _ IH].
  - cbn. split; [discriminate | intros H; inversion H].
  - cbn [encode]. rewrite Exists_cons.
    destruct (Z_le_dec 55296 c) as [Hlo|Hlo];
      [destruct (Z_le_dec c 57343) as [Hhi|Hhi]|].
    + assert (encode_char c = None) as ->.
      { unfold encode_char. decide_tests. reflexivity. }
      split; [intros _; left; lia | reflexivity].
    + destruct (encode_char_decodes c) as (bs & -> & _);
        [unfold scalar; lia|].
      destruct (encode string) as [bs'|].
      * split; [discriminate|]. intros [?|H]; [lia|].
        now apply IH in H.
      * split; [intros _; right; now apply IH | reflexivity].
    + destruct (encode_char_decodes c) as (bs & -> & _);
        [unfold scalar; lia|].
      destruct (encode string) as [bs'|].
      * split; [discriminate|]. intros [?|H]; [lia|].
        now apply IH in H.
      * split; [intros _; right; now apply IH | reflexivity].
Qed.

(** [str2byte] raises (the [UnicodeEncodeError] of [encode]) exactly on the
    strings that hold a surrogate code point. *)
Theorem str2byte_raises (string : ustr) :
  Forall (fun c => 0 <= c < 1114112) string ->
  (str2byte string = None <-> Exists (fun c => 55296 <= c <= 57343) string).
Proof.
  intros Hs. rewrite <- (encode_none string Hs). unfold str2byte.
  destruct (encode string); split; congruence.
Qed.

Lemma str2byte_raises_witness :
  str2byte [97; 55296] = None <->
  Exists (fun c => 55296 <= c <= 57343) [97; 55296].
Proof.
  apply (str2byte_raises [97; 55296]).
  repeat constructor; lia.
Defined.

End BytesFacts.

(** ** The word tokenizer and its inverse *)

Module TokenizerFacts.

Import Reader Tokenizer.

Lemma no_space_append (a b : str) :
  no_space (a ++ b) = no_space a && no_space b.
Proof.
  induction a as [|x a IH]; cbn; [reflexivity|].
  now rewrite IH, andb_assoc.
Qed.

(** Reading a run of characters that are not whitespace extends the open
    word by it. *)
Lemma split_from_run (w rest : str) :
  no_space w = true ->
  forall acc,
    split_from (Some acc) (w ++ rest) = split_from (Some (acc ++ w)) rest.
Proof.
  induction w as [|c w IH]; intros Hw acc; cbn in *.
  - now rewrite app_nil_r.
  - apply andb_true_iff in Hw as [Hc Hw]. apply negb_true_iff in Hc.
    rewrite Hc, IH by assumption. now rewrite <- app_assoc.
Qed.

Lemma split_from_word (w rest : str) :
  is_word w ->
  split_from None (w ++ rest) = split_from (Some w) rest.
Proof.
  intros [Hne Hw]. destruct w as [|c w]; [congruence|]. cbn in *.
  apply andb_true_iff in Hw as [Hc Hw]. apply negb_true_iff in Hc.
  rewrite Hc. now rewrite split_from_run.
Qed.

Lemma split_join (ex : list str) :
  Forall is_word ex -> split (revserse_tokenizer ex) = ex.
Proof.
  unfold split, revserse_tokenizer.
  induction 1 as [|x ex Hx Hex IH]; [reflexivity|].
  destruct ex as [|y ex].
  - cbn [join]. rewrite <- (app_nil_r x) at 1.
    now rewrite split_from_word.
  - change (join [32] (x :: y :: ex))
      with (x ++ [32] ++ join [32] (y :: ex)).
    rewrite split_from_word by assumption.
    cbn [app split_from].
    change (isspace 32) with true. cbv iota.
    now rewrite IH.
Qed.

Lemma split_from_words (s : str) :
  forall acc,
    match acc with Some w => is_word w | None => True end ->
    Forall is_word (split_from acc s).
Proof.
  induction s as [|c s IH]; intros acc Hacc; cbn [split_from].
  - destruct acc; [now constructor | constructor].
  - destruct (isspace c) eqn:Hc.
    + destruct acc; [constructor; [assumption|] |]; now apply IH.
    + apply IH. split.
      * destruct acc as [[|]|]; discriminate.
      * rewrite no_space_append. cbn [no_space]. rewrite Hc. cbn.
        destruct acc as [w|]; [|reflexivity].
        destruct Hacc as [_ ->]. reflexivity.
Qed.

(** Round trip from the tokens: a sentence of tokens that are not empty and
    hold no whitespace, joined by [revserse_tokenizer], is split into the
    same tokens by [tokenizer]. *)
Theorem tokenizer_inverts_join (ex : list str) :
  Forall is_word ex -> tokenizer (revserse_tokenizer ex) = ex.
Proof. exact (split_join ex). Qed.

(** Round trip from the text: the tokens of any text are not empty and hold
    no whitespace; joining them gives a text with the same tokens, so
    tokenizing, joining and tokenizing again changes nothing. *)
Theorem tokenizer_stable (s : str) :
  Forall is_word (tokenizer s) /\
  tokenizer (revserse_tokenizer (tokenizer s)) = tokenizer s.
Proof.
  assert (H : Forall is_word (tokenizer s)).
  { apply split_from_words. exact I. }
  split; [exact H | now apply split_join].
Qed.

Import String.

Lemma tokenizer_inverts_join_witness :
  tokenizer (revserse_tokenizer [text "ein"; text "Haus"; text "."])
  = [text "ein"; text "Haus"; text "."].
Proof.
  apply (tokenizer_inverts_join [text "ein"; text "Haus"; text "."]).
  repeat constructor; discriminate.
Defined.

End TokenizerFacts.
